(** * CargoEscape: procedural audio pipeline

    A shallow embedding of [generate_audio.py] and [generate_music.py]:
    the waveform generators, the mixer, the looper and the 16-bit PCM
    encoder, followed by the properties the specification states of them.

    Numbers.  A Python [float] is a rational number, and every sample is
    carried here as a [Q] with exact arithmetic: rounding of [+], [-], [*]
    and [/] to the nearest double is not modelled, nor are infinities and
    NaN.  Python [int]s are [Z]; an [int] used in float arithmetic is
    injected with [inject_Z].  Equality of samples is [Qeq] (numeric
    equality, as Python's [==]), equality of buffers is elementwise.

    Library functions.  [math.sin], [math.exp] and [math.pi] are taken as
    parameters (class [PyMath]).  [random.random()] reads and advances the
    process-wide generator, modelled as the stream of its future draws.

    Exceptions.  A Python expression that can raise is modelled in the
    [outcome] monad; a [while] loop carries fuel, and running out of fuel
    ([None]) stands for a loop that has not returned yet. *)

From Stdlib.Strings Require Import String.
From Stdlib.Strings Require Byte.
From Stdlib Require Import ZArith QArith Qround Qabs List Bool Lia Lqa.
From Stdlib Require Import Morphisms Setoid Permutation.
Import ListNotations.

Local Open Scope Z_scope.
Local Open Scope Q_scope.

(** ** The Python runtime *)

Inductive exn : Type :=
| ZeroDivisionError
| ValueError
| IndexError
| StructError.

Inductive outcome (A : Type) : Type :=
| Ok (a : A)
| Raise (e : exn).

Arguments Ok {A} a.
Arguments Raise {A} e.

Definition bind {A B} (c : outcome A) (k : A -> outcome B) : outcome B :=
  match c with
  | Ok a => k a
  | Raise e => Raise e
  end.

Notation "x <- c ;; k" := (bind c (fun x => k))
  (at level 61, c at next level, right associativity).

(** [for x in l: out.append(f(x))], stopping at the first exception. *)
Fixpoint mapM {A B} (f : A -> outcome B) (l : list A) : outcome (list B) :=
  match l with
  | [] => Ok []
  | x :: l' => y <- f x ;; ys <- mapM f l' ;; Ok (y :: ys)
  end.

(** [range(n)]: empty when [n <= 0]. *)
Definition py_range (n : Z) : list Z :=
  map Z.of_nat (seq 0 (Z.to_nat n)).

(** [int(x)] on a float: truncation toward zero. *)
Definition py_int (x : Q) : Z := Z.quot (Qnum x) (QDen x).

(** [a / b]: true division, raising on a zero divisor. *)
Definition py_div (a b : Q) : outcome Q :=
  if Qeq_bool b 0 then Raise ZeroDivisionError else Ok (a / b).

Definition Qltb (a b : Q) : bool := negb (Qle_bool b a).

(** The builtins [min(a, b)] and [max(a, b)]: the first argument is kept
    unless the second is strictly smaller (resp. larger). *)
Definition py_min (a b : Q) : Q := if Qltb b a then b else a.
Definition py_max (a b : Q) : Q := if Qltb a b then b else a.

(** [max(iterable)]: [ValueError] on an empty iterable, otherwise the first
    of the largest items. *)
Definition py_max_of {A} (ltb : A -> A -> bool) (l : list A) : outcome A :=
  match l with
  | [] => Raise ValueError
  | x :: l' => Ok (fold_left (fun best y => if ltb best y then y else best) l' x)
  end.

(** The functions of the [math] module the generators call. *)
Class PyMath : Type := {
  math_sin : Q -> Q;
  math_exp : Q -> Q;
  math_pi : Q
}.

(** The state of the shared random generator: the draws to come.  Each
    [random.random()] returns the head and leaves the tail. *)
Definition rng : Type := nat -> Q.

(** Computations that may draw random numbers and may raise. *)
Definition rand (A : Type) : Type := rng -> outcome A * rng.

Definition ret_rand {A} (a : A) : rand A := fun g => (Ok a, g).

Definition bind_rand {A B} (c : rand A) (k : A -> rand B) : rand B :=
  fun g =>
    match c g with
    | (Ok a, g') => k a g'
    | (Raise e, g') => (Raise e, g')
    end.

Definition lift_rand {A} (c : outcome A) : rand A := fun g => (c, g).

Definition random_random : rand Q := fun g => (Ok (g O), fun n => g (S n)).

Notation "x <~ c ;; k" := (bind_rand c (fun x => k))
  (at level 61, c at next level, right associativity).

Fixpoint mapM_rand {A B} (f : A -> rand B) (l : list A) : rand (list B) :=
  match l with
  | [] => ret_rand []
  | x :: l' => y <~ f x ;; ys <~ mapM_rand f l' ;; ret_rand (y :: ys)
  end.

Coercion inject_Z : Z >-> Q.

(** [struct.pack('<h', v)]: the two bytes of a signed 16-bit integer, low
    byte first; [struct.error] outside [-32768, 32767]. *)
Definition byte_of_Z (z : Z) : Byte.byte :=
  match Byte.of_N (Z.to_N z) with
  | Some b => b
  | None => Byte.x00
  end.

Definition struct_pack_h (v : Z) : outcome (list Byte.byte) :=
  if ((-32768 <=? v) && (v <=? 32767))%Z
  then let u := (v mod 65536)%Z in
       Ok [byte_of_Z (u mod 256); byte_of_Z (u / 256)]
  else Raise StructError.

(** The [wave.Wave_write] object: its parameters and the frames written so
    far.  The files written are kept by name. *)
Record wave_write : Type := {
  nchannels : Z;
  sampwidth : Z;
  framerate : Z;
  frames : list Byte.byte
}.

Definition wave_open : wave_write :=
  {| nchannels := 0; sampwidth := 0; framerate := 0; frames := [] |}.

Definition setnchannels (n : Z) (w : wave_write) : wave_write :=
  {| nchannels := n; sampwidth := sampwidth w;
     framerate := framerate w; frames := frames w |}.

Definition setsampwidth (n : Z) (w : wave_write) : wave_write :=
  {| nchannels := nchannels w; sampwidth := n;
     framerate := framerate w; frames := frames w |}.

Definition setframerate (n : Z) (w : wave_write) : wave_write :=
  {| nchannels := nchannels w; sampwidth := sampwidth w;
     framerate := n; frames := frames w |}.

Definition writeframes (data : list Byte.byte) (w : wave_write) : wave_write :=
  {| nchannels := nchannels w; sampwidth := sampwidth w;
     framerate := framerate w; frames := frames w ++ data |}.

Definition filesystem : Type := string -> option wave_write.

Definition fs_write (filename : string) (w : wave_write) (fs : filesystem)
  : filesystem :=
  fun f => if String.eqb f filename then Some w else fs f.

(** The branch of the three-way envelope conditional
    [if i < a: ... elif i > n - r: ... else: ...] taken at index [i]. *)
Inductive env_branch : Type := FadeIn | FadeOut | Sustain.

(** The envelope conditional of [generate_sine_wave] and [generate_note]
    (the two functions spell it out identically):
    [if i < a: envelope = i / a
     elif i > n - r: envelope = (n - i) / r
     else: envelope = 1.0]. *)
Definition fade_branch (n a r i : Z) : env_branch :=
  if (i <? a)%Z then FadeIn
  else if (i >? n - r)%Z then FadeOut
  else Sustain.

Definition fade_envelope (n a r i : Z) : outcome Q :=
  match fade_branch n a r i with
  | FadeIn => py_div i a
  | FadeOut => py_div (n - i)%Z r
  | Sustain => Ok 1.0
  end.

(** ** generate_audio.py *)

Module generate_audio.

Definition SAMPLE_RATE : Z := 44100.

Section Generators.
Context {M : PyMath}.

Definition generate_sine_wave (frequency duration volume fade_in fade_out : Q)
  : outcome (list Q) :=
  let num_samples := py_int (SAMPLE_RATE * duration) in
  let fade_in_samples := py_int (SAMPLE_RATE * fade_in) in
  let fade_out_samples := py_int (SAMPLE_RATE * fade_out) in
  mapM (fun i : Z =>
          envelope <- fade_envelope num_samples fade_in_samples fade_out_samples i ;;
          Ok (volume * envelope
              * math_sin (2 * math_pi * frequency * i / SAMPLE_RATE)))
       (py_range num_samples).

Definition generate_noise (duration volume fade_out : Q) : rand (list Q) :=
  let num_samples := py_int (SAMPLE_RATE * duration) in
  let fade_out_samples := py_int (SAMPLE_RATE * fade_out) in
  mapM_rand (fun i : Z =>
          envelope <~ lift_rand
            (if (i >? num_samples - fade_out_samples)%Z
             then py_div (num_samples - i)%Z fade_out_samples
             else Ok 1.0) ;;
          r <~ random_random ;;
          ret_rand (volume * envelope * (r * 2 - 1)))
       (py_range num_samples).

Definition generate_sweep (start_freq end_freq duration volume : Q)
  : outcome (list Q) :=
  let num_samples := py_int (SAMPLE_RATE * duration) in
  mapM (fun i : Z =>
          t <- py_div i num_samples ;;
          let freq := start_freq + (end_freq - start_freq) * t in
          let envelope := 1.0 - (t * 0.5) in
          Ok (volume * envelope
              * math_sin (2 * math_pi * freq * i / SAMPLE_RATE)))
       (py_range num_samples).

Definition generate_beep (frequency duration volume : Q) : outcome (list Q) :=
  generate_sine_wave frequency duration volume 0.005 0.02.

Definition generate_explosion (duration volume : Q) : rand (list Q) :=
  let num_samples := py_int (SAMPLE_RATE * duration) in
  mapM_rand (fun i : Z =>
          t <~ lift_rand (py_div i num_samples) ;;
          let envelope := math_exp (- t * 5) * volume in
          let low_freq := 50 + 30 * math_sin (t * 10) in
          r <~ random_random ;;
          ret_rand (envelope
                    * (0.5 * math_sin (2 * math_pi * low_freq * i / SAMPLE_RATE)
                       + 0.5 * (r * 2 - 1))))
       (py_range num_samples).

Definition generate_laser (duration volume : Q) : outcome (list Q) :=
  let num_samples := py_int (SAMPLE_RATE * duration) in
  mapM (fun i : Z =>
          t <- py_div i num_samples ;;
          let freq := 2000 - 1500 * t in
          let envelope := (1 - t) * volume in
          Ok (envelope * math_sin (2 * math_pi * freq * i / SAMPLE_RATE)))
       (py_range num_samples).

Definition generate_door (opening : bool) (duration : Q) : rand (list Q) :=
  let num_samples := py_int (SAMPLE_RATE * duration) in
  mapM_rand (fun i : Z =>
          t <~ lift_rand (py_div i num_samples) ;;
          let freq := if opening then 100 + 200 * t else 300 - 200 * t in
          let envelope := 0.4 * (1 - Qabs (t - 0.5) * 2) in
          r <~ random_random ;;
          let noise := 0.1 * (r * 2 - 1) in
          ret_rand (envelope
                    * (math_sin (2 * math_pi * freq * i / SAMPLE_RATE) + noise)))
       (py_range num_samples).

Definition generate_ui_click (duration volume : Q) : outcome (list Q) :=
  generate_sine_wave 800 duration volume 0.001 0.02.

Definition generate_loot_pickup (rarity : Z) (duration : Q) : outcome (list Q) :=
  let base_freq := (400 + rarity * 100)%Z in
  let num_samples := py_int (SAMPLE_RATE * duration) in
  mapM (fun i : Z =>
          t <- py_div i num_samples ;;
          let freq := base_freq + 200 * t in
          let volume := 0.4 * (1 - t * 0.5) in
          let sample := volume * math_sin (2 * math_pi * freq * i / SAMPLE_RATE) in
          let sample :=
            if (rarity >=? 2)%Z
            then sample + 0.2 * volume
                          * math_sin (2 * math_pi * freq * 1.5 * i / SAMPLE_RATE)
            else sample in
          let sample :=
            if (rarity >=? 4)%Z
            then sample + 0.15 * volume
                          * math_sin (2 * math_pi * freq * 2 * i / SAMPLE_RATE)
            else sample in
          Ok sample)
       (py_range num_samples).

Definition generate_alert (urgent : bool) (duration : Q) : outcome (list Q) :=
  let num_samples := py_int (SAMPLE_RATE * duration) in
  let freq : Z := if urgent then 880%Z else 440%Z in
  mapM (fun i : Z =>
          t <- py_div i num_samples ;;
          let pulse := 0.5 + 0.5 * math_sin (t * 20) in
          let volume := 0.5 * pulse * (1 - t * 0.3) in
          Ok (volume * math_sin (2 * math_pi * freq * i / SAMPLE_RATE)))
       (py_range num_samples).

Definition generate_ambient_loop (duration base_freq : Q) : outcome (list Q) :=
  let num_samples := py_int (SAMPLE_RATE * duration) in
  mapM (fun i : Z =>
          let t := i / SAMPLE_RATE in
          let sample := 0.15 * (
            math_sin (2 * math_pi * base_freq * t)
            + 0.5 * math_sin (2 * math_pi * (base_freq * 1.5) * t)
            + 0.3 * math_sin (2 * math_pi * (base_freq * 0.5) * t
                              + math_sin (t * 0.5))) in
          let sample :=
            sample + 0.05 * math_sin (2 * math_pi * 100 * t
                                      + math_sin (t * 2) * 10) in
          Ok sample)
       (py_range num_samples).

End Generators.

(** The sample loop of [save_wav]: clamp, quantise, pack, write. *)
Fixpoint write_samples (samples : list Q) (wav_file : wave_write)
  : outcome wave_write :=
  match samples with
  | [] => Ok wav_file
  | sample :: rest =>
      let sample := py_max (-1.0) (py_min 1.0 sample) in
      packed <- struct_pack_h (py_int (sample * 32767)) ;;
      write_samples rest (writeframes packed wav_file)
  end.

(** [os.makedirs] and [print] leave the written file unchanged and are not
    modelled. *)
Definition save_wav (filename : string) (samples : list Q) (fs : filesystem)
  : outcome filesystem :=
  let wav_file := wave_open in
  let wav_file := setnchannels 1 wav_file in
  let wav_file := setsampwidth 2 wav_file in
  let wav_file := setframerate SAMPLE_RATE wav_file in
  wav_file <- write_samples samples wav_file ;;
  Ok (fs_write filename wav_file fs).

End generate_audio.

(** ** generate_music.py *)

Module generate_music.

Definition SAMPLE_RATE : Z := 44100.

Section Generators.
Context {M : PyMath}.

Definition generate_note (frequency duration volume attack release : Q)
  : outcome (list Q) :=
  let num_samples := py_int (SAMPLE_RATE * duration) in
  let attack_samples := py_int (SAMPLE_RATE * attack) in
  let release_samples := py_int (SAMPLE_RATE * release) in
  mapM (fun i : Z =>
          envelope <- fade_envelope num_samples attack_samples release_samples i ;;
          Ok (volume * envelope * (
                0.6 * math_sin (2 * math_pi * frequency * i / SAMPLE_RATE)
                + 0.25 * math_sin (2 * math_pi * frequency * 2 * i / SAMPLE_RATE)
                + 0.15 * math_sin (2 * math_pi * frequency * 3 * i / SAMPLE_RATE))))
       (py_range num_samples).

Definition generate_pad (frequency duration volume : Q) : outcome (list Q) :=
  let num_samples := py_int (SAMPLE_RATE * duration) in
  mapM (fun i : Z =>
          let t := i / SAMPLE_RATE in
          let lfo := 1 + 0.02 * math_sin (t * 0.5) in
          Ok (volume * (
                0.4 * math_sin (2 * math_pi * frequency * lfo * t)
                + 0.3 * math_sin (2 * math_pi * frequency * 0.5 * t)
                + 0.2 * math_sin (2 * math_pi * frequency * 1.5 * t)
                + 0.1 * math_sin (2 * math_pi * frequency * 2 * t))))
       (py_range num_samples).

Definition generate_bass (frequency duration volume : Q) : outcome (list Q) :=
  let num_samples := py_int (SAMPLE_RATE * duration) in
  mapM (fun i : Z =>
          t <- py_div i num_samples ;;
          let envelope := py_min 1.0 (i / (SAMPLE_RATE * 0.02)) * (1 - t * 0.2) in
          Ok (volume * envelope * (
                0.7 * math_sin (2 * math_pi * frequency * i / SAMPLE_RATE)
                + 0.3 * math_sin (2 * math_pi * frequency * 2 * i / SAMPLE_RATE))))
       (py_range num_samples).

(** [for freq in notes: samples.extend(generate_note(...))]. *)
Fixpoint generate_arp (notes : list Q) (note_duration volume : Q)
  : outcome (list Q) :=
  match notes with
  | [] => Ok []
  | freq :: notes' =>
      note <- generate_note freq note_duration volume 0.01 0.05 ;;
      samples <- generate_arp notes' note_duration volume ;;
      Ok (note ++ samples)
  end.

End Generators.

(** [l[i]] and [l[i] = x] for [0 <= i]: [IndexError] past the end. *)
Definition py_getitem (l : list Q) (i : nat) : outcome Q :=
  match nth_error l i with
  | Some x => Ok x
  | None => Raise IndexError
  end.

Definition py_setitem (l : list Q) (i : nat) (x : Q) : outcome (list Q) :=
  if (i <? length l)%nat
  then Ok (firstn i l ++ x :: skipn (S i) l)
  else Raise IndexError.

Fixpoint enumerate_from (i : nat) (l : list Q) : list (nat * Q) :=
  match l with
  | [] => []
  | x :: l' => (i, x) :: enumerate_from (S i) l'
  end.

Definition enumerate (l : list Q) : list (nat * Q) := enumerate_from 0 l.

Fixpoint foldM {A S} (step : S -> A -> outcome S) (l : list A) (s : S)
  : outcome S :=
  match l with
  | [] => Ok s
  | x :: l' => s' <- step s x ;; foldM step l' s'
  end.

(** [for i, sample in enumerate(track): result[i] += sample]. *)
Definition add_track (result track : list Q) : outcome (list Q) :=
  foldM (fun result '(i, sample) =>
           old <- py_getitem result i ;;
           py_setitem result i (old + sample))
        (enumerate track) result.

Definition mix_tracks (tracks : list (list Q)) : outcome (list Q) :=
  max_len <- py_max_of Nat.ltb (map (@length Q) tracks) ;;
  let result := repeat 0.0 max_len in
  result <- foldM add_track tracks result ;;
  peak <- match result with
          | [] => Ok 1.0
          | _ => py_max_of Qltb (map Qabs result)
          end ;;
  if Qltb 0.9 peak
  then mapM (fun s => q <- py_div s peak ;; Ok (q * 0.85)) result
  else Ok result.

(** [l[:n]]: the first [n] items, or all but the last [-n] when [n < 0]. *)
Definition py_slice_to (l : list Q) (n : Z) : list Q :=
  if (n <? 0)%Z
  then firstn (Z.to_nat (Z.of_nat (length l) + n)) l
  else firstn (Z.to_nat n) l.

(** [while len(result) < target_samples: result.extend(samples)], run for
    at most [fuel] tests of the condition. *)
Fixpoint extend_until (fuel : nat) (samples : list Q) (target_samples : Z)
  (result : list Q) : option (list Q) :=
  match fuel with
  | O => None
  | S fuel' =>
      if (Z.of_nat (length result) <? target_samples)%Z
      then extend_until fuel' samples target_samples (result ++ samples)
      else Some result
  end.

Definition loop_to_duration (fuel : nat) (samples : list Q) (duration : Q)
  : option (list Q) :=
  let target_samples := py_int (SAMPLE_RATE * duration) in
  match extend_until fuel samples target_samples [] with
  | Some result => Some (py_slice_to result target_samples)
  | None => None
  end.

Fixpoint write_samples (samples : list Q) (wav_file : wave_write)
  : outcome wave_write :=
  match samples with
  | [] => Ok wav_file
  | sample :: rest =>
      let sample := py_max (-1.0) (py_min 1.0 sample) in
      packed <- struct_pack_h (py_int (sample * 32767)) ;;
      write_samples rest (writeframes packed wav_file)
  end.

Definition save_wav (filename : string) (samples : list Q) (fs : filesystem)
  : outcome filesystem :=
  let wav_file := wave_open in
  let wav_file := setnchannels 1 wav_file in
  let wav_file := setsampwidth 2 wav_file in
  let wav_file := setframerate SAMPLE_RATE wav_file in
  wav_file <- write_samples samples wav_file ;;
  Ok (fs_write filename wav_file fs).

(** *** The cues

    A cue looks note names up in [NOTES] (a [KeyError] on a missing name),
    calls the generators and the mixer, and loops buffers to the duration
    asked for; it returns, raises, or runs out of fuel inside a [while]
    loop. *)

Inductive raised : Type :=
| KeyError (key : string)
| Builtin (e : exn).

Inductive run (A : Type) : Type :=
| Returns (a : A)
| Raises (e : raised)
| Running.

Arguments Returns {A} a.
Arguments Raises {A} e.
Arguments Running {A}.

Definition bind_run {A B} (c : run A) (k : A -> run B) : run B :=
  match c with
  | Returns a => k a
  | Raises e => Raises e
  | Running => Running
  end.

Notation "x <-- c ;; k" := (bind_run c (fun x => k))
  (at level 61, c at next level, right associativity).

Definition of_outcome {A} (c : outcome A) : run A :=
  match c with
  | Ok a => Returns a
  | Raise e => Raises (Builtin e)
  end.

Definition of_loop {A} (c : option A) : run A :=
  match c with
  | Some a => Returns a
  | None => Running
  end.

Fixpoint mapM_run {A B} (f : A -> run B) (l : list A) : run (list B) :=
  match l with
  | [] => Returns []
  | x :: l' => y <-- f x ;; ys <-- mapM_run f l' ;; Returns (y :: ys)
  end.

Fixpoint foldM_run {A S} (step : S -> A -> run S) (l : list A) (s : S)
  : run S :=
  match l with
  | [] => Returns s
  | x :: l' => s' <-- step s x ;; foldM_run step l' s'
  end.

(** Note frequencies (Hz). *)
Definition NOTES : list (string * Q) :=
  [("C3", 130.81); ("D3", 146.83); ("E3", 164.81); ("F3", 174.61);
   ("G3", 196.00); ("A3", 220.00); ("B3", 246.94);
   ("C4", 261.63); ("D4", 293.66); ("E4", 329.63); ("F4", 349.23);
   ("G4", 392.00); ("A4", 440.00); ("B4", 493.88);
   ("C5", 523.25); ("D5", 587.33); ("E5", 659.25); ("F5", 698.46);
   ("G5", 783.99); ("A5", 880.00)]%string.

(** [d[key]]. *)
Fixpoint dict_getitem (d : list (string * Q)) (key : string) : run Q :=
  match d with
  | [] => Raises (KeyError key)
  | (k, v) :: d' => if String.eqb k key then Returns v else dict_getitem d' key
  end.

(** [[0.0] * n]: empty when [n <= 0]. *)
Definition silence (n : Z) : list Q := repeat 0.0 (Z.to_nat n).

Section Cues.
Context {M : PyMath}.

(** The pad layering loop that three cues spell out over a buffer of
    silence:
    [for note in chord:
         pad = generate_pad(note, chord_duration, volume)
         for i, s in enumerate(pad): chord_samples[i] += s]. *)
Definition layer_pads (chord : list Q) (chord_duration volume : Q)
  (chord_samples : list Q) : run (list Q) :=
  foldM_run (fun chord_samples note =>
               pad <-- of_outcome (generate_pad note chord_duration volume) ;;
               of_outcome (add_track chord_samples pad))
            chord chord_samples.

(** [for chord in chords: chord_samples = [0.0] * int(SAMPLE_RATE *
    chord_duration); (layering loop); pad_sequence.extend(chord_samples)]. *)
Definition pad_progression (chords : list (list Q)) (chord_duration volume : Q)
  : run (list Q) :=
  foldM_run (fun pad_sequence chord =>
               let chord_samples :=
                 silence (py_int (SAMPLE_RATE * chord_duration)) in
               chord_samples <--
                 layer_pads chord chord_duration volume chord_samples ;;
               Returns (pad_sequence ++ chord_samples))
            chords [].

Definition generate_main_menu_music (fuel : nat) (duration : Q)
  : run (list Q) :=
  let chord_duration := 4.0 in
  chords <-- mapM_run (mapM_run (dict_getitem NOTES))
               [["A3"; "C4"; "E4"]; ["F3"; "A3"; "C4"];
                ["C3"; "E3"; "G3"]; ["G3"; "B3"; "D4"]]%string ;;
  pad_sequence <-- pad_progression chords chord_duration 0.15 ;;
  pad_track <-- of_loop (loop_to_duration fuel pad_sequence duration) ;;
  arp_notes <-- mapM_run (dict_getitem NOTES) ["E5"; "A4"; "C5"; "E4"]%string ;;
  arp_pattern <-- of_outcome (generate_arp arp_notes 0.5 0.1) ;;
  arp_track <-- of_loop (loop_to_duration fuel arp_pattern duration) ;;
  a3 <-- dict_getitem NOTES "A3" ;;
  drone <-- of_outcome (generate_pad (a3 / 2) duration 0.12) ;;
  of_outcome (mix_tracks [pad_track; arp_track; drone]).

Definition generate_space_exploration_music (fuel : nat) (duration : Q)
  : run (list Q) :=
  let chord_duration := 6.0 in
  chords <-- mapM_run (mapM_run (dict_getitem NOTES))
               [["C4"; "G4"; "C5"]; ["A3"; "E4"; "A4"];
                ["F3"; "C4"; "F4"]; ["G3"; "D4"; "G4"]]%string ;;
  pad_sequence <-- pad_progression chords chord_duration 0.12 ;;
  pad_track <-- of_loop (loop_to_duration fuel pad_sequence duration) ;;
  c3 <-- dict_getitem NOTES "C3" ;;
  a3 <-- dict_getitem NOTES "A3" ;;
  f3 <-- dict_getitem NOTES "F3" ;;
  g3 <-- dict_getitem NOTES "G3" ;;
  let bass_notes := [c3; a3 / 2; f3 / 2; g3 / 2] in
  bass_sequence <--
    foldM_run (fun bass_sequence note =>
                 bass <-- of_outcome (generate_bass note 6.0 0.2) ;;
                 Returns (bass_sequence ++ bass))
              bass_notes [] ;;
  bass_track <-- of_loop (loop_to_duration fuel bass_sequence duration) ;;
  arp_notes <-- mapM_run (dict_getitem NOTES)
                  ["G5"; "E5"; "C5"; "G4"; "E5"; "C5"]%string ;;
  arp <-- of_outcome (generate_arp arp_notes 0.4 0.08) ;;
  arp_track <-- of_loop (loop_to_duration fuel arp duration) ;;
  of_outcome (mix_tracks [pad_track; bass_track; arp_track]).


Definition generate_boarding_music (fuel : nat) (duration : Q) (escape : bool)
  : run (list Q) :=
  c3 <-- dict_getitem NOTES "C3" ;;
  drone <-- of_outcome (generate_pad (c3 / 2) duration 0.15) ;;
  c4 <-- dict_getitem NOTES "C4" ;;
  pad1 <-- of_outcome (generate_pad c4 duration 0.1) ;;
  c4 <-- dict_getitem NOTES "C4" ;;
  pad2 <-- of_outcome (generate_pad (c4 * 1.059) duration 0.08) ;;
  let pulse_interval := if negb escape then 0.8 else 0.5 in
  pulse_sequence <--
    foldM_run (fun pulse_sequence (_ : Z) =>
                 c3 <-- dict_getitem NOTES "C3" ;;
                 beat <-- of_outcome (generate_bass (c3 / 2) 0.1 0.25) ;;
                 let pulse_sequence := pulse_sequence ++ beat in
                 let pulse_sequence :=
                   pulse_sequence ++ silence (py_int (SAMPLE_RATE * 0.05)) in
                 c3 <-- dict_getitem NOTES "C3" ;;
                 beat <-- of_outcome (generate_bass (c3 / 2) 0.08 0.15) ;;
                 let pulse_sequence := pulse_sequence ++ beat in
                 Returns (pulse_sequence
                          ++ silence (py_int (SAMPLE_RATE
                                              * (pulse_interval - 0.23)))))
              (py_range (py_int (duration / pulse_interval))) [] ;;
  let pulse_track := py_slice_to pulse_sequence (py_int (SAMPLE_RATE * duration)) in
  if escape
  then
    arp_notes <-- mapM_run (dict_getitem NOTES) ["C5"; "E5"; "G5"; "C5"]%string ;;
    arp <-- of_outcome (generate_arp arp_notes 0.15 0.12) ;;
    arp_track <-- of_loop (loop_to_duration fuel arp duration) ;;
    of_outcome (mix_tracks [drone; pad1; pad2; pulse_track; arp_track])
  else
    of_outcome (mix_tracks [drone; pad1; pad2; pulse_track]).



End Cues.

End generate_music.

(** ** Calls and runs

    A call of one of the generators with its arguments; [call] runs it
    against a state of the random generator and returns the buffer (or the
    exception) with the state left behind. *)

Inductive generator : Type :=
| Sine (frequency duration volume fade_in fade_out : Q)
| Noise (duration volume fade_out : Q)
| Sweep (start_freq end_freq duration volume : Q)
| Beep (frequency duration volume : Q)
| Explosion (duration volume : Q)
| Laser (duration volume : Q)
| Door (opening : bool) (duration : Q)
| UiClick (duration volume : Q)
| LootPickup (rarity : Z) (duration : Q)
| Alert (urgent : bool) (duration : Q)
| AmbientLoop (duration base_freq : Q)
| Note (frequency duration volume attack release : Q)
| Pad (frequency duration volume : Q)
| Bass (frequency duration volume : Q)
| Arp (notes : list Q) (note_duration volume : Q).

Definition call {M : PyMath} (c : generator) : rand (list Q) :=
  match c with
  | Sine f d v a r => lift_rand (generate_audio.generate_sine_wave f d v a r)
  | Noise d v r => generate_audio.generate_noise d v r
  | Sweep s e d v => lift_rand (generate_audio.generate_sweep s e d v)
  | Beep f d v => lift_rand (generate_audio.generate_beep f d v)
  | Explosion d v => generate_audio.generate_explosion d v
  | Laser d v => lift_rand (generate_audio.generate_laser d v)
  | Door o d => generate_audio.generate_door o d
  | UiClick d v => lift_rand (generate_audio.generate_ui_click d v)
  | LootPickup k d => lift_rand (generate_audio.generate_loot_pickup k d)
  | Alert u d => lift_rand (generate_audio.generate_alert u d)
  | AmbientLoop d b => lift_rand (generate_audio.generate_ambient_loop d b)
  | Note f d v a r => lift_rand (generate_music.generate_note f d v a r)
  | Pad f d v => lift_rand (generate_music.generate_pad f d v)
  | Bass f d v => lift_rand (generate_music.generate_bass f d v)
  | Arp ns d v => lift_rand (generate_music.generate_arp ns d v)
  end.

(** The duration argument of a call (for [generate_arp], the duration of
    each of its notes). *)
Definition duration_of (c : generator) : Q :=
  match c with
  | Sine _ d _ _ _ | Noise d _ _ | Sweep _ _ d _ | Beep _ d _
  | Explosion d _ | Laser d _ | Door _ d | UiClick d _ | LootPickup _ d
  | Alert _ d | AmbientLoop d _ | Note _ d _ _ _ | Pad _ d _ | Bass _ d _
  | Arp _ d _ => d
  end.

(** How many buffers of that duration the call lays end to end: one, but
    for an arpeggio, one per note. *)
Definition notes_played (c : generator) : nat :=
  match c with
  | Arp ns _ _ => length ns
  | _ => 1%nat
  end.

(** The generators whose body calls [random.random()]. *)
Definition uses_random (c : generator) : bool :=
  match c with
  | Noise _ _ _ | Explosion _ _ | Door _ _ => true
  | _ => false
  end.

(** ** Specification vocabulary *)

(** [clamp lo hi s]: [s] brought into [lo, hi]. *)
Definition clamp (lo hi s : Q) : Q :=
  if Qltb s lo then lo else if Qltb hi s then hi else s.

(** Reading signed 16-bit little-endian PCM frames back. *)
Definition unpack_h (b0 b1 : Byte.byte) : Z :=
  let u := (Z.of_N (Byte.to_N b0) + 256 * Z.of_N (Byte.to_N b1))%Z in
  if (u <? 32768)%Z then u else (u - 65536)%Z.

Fixpoint decode_frames (data : list Byte.byte) : option (list Z) :=
  match data with
  | [] => Some []
  | b0 :: b1 :: rest =>
      match decode_frames rest with
      | Some vs => Some (unpack_h b0 b1 :: vs)
      | None => None
      end
  | [_] => None
  end.

(** The integers a run of [save_wav] leaves in the file [filename]. *)
Definition written (filename : string) (r : outcome filesystem)
  : option (list Z) :=
  match r with
  | Ok fs =>
      match fs filename with
      | Some w => decode_frames (frames w)
      | None => None
      end
  | Raise _ => None
  end.


(** Elementwise numeric equality of buffers. *)
Definition buf_eq (a b : list Q) : Prop := Forall2 Qeq a b.

(** Sample [i] of the sum of the tracks, a track contributing silence past
    its end. *)
Definition sum_at (tracks : list (list Q)) (i : nat) : Q :=
  fold_right Qplus 0 (map (fun t => nth i t 0) tracks).

Definition longest (tracks : list (list Q)) : nat :=
  fold_right Nat.max 0%nat (map (@length Q) tracks).

(** [p] is the peak of [buf]: the largest absolute sample. *)
Definition is_peak (p : Q) (buf : list Q) : Prop :=
  (exists s, In s buf /\ Qabs s == p) /\ (forall s, In s buf -> Qabs s <= p).

(** Two runs agree: the same exception, or buffers equal sample by sample. *)
Definition same_outcome (a b : outcome (list Q)) : Prop :=
  match a, b with
  | Ok x, Ok y => buf_eq x y
  | Raise e, Raise e' => e = e'
  | _, _ => False
  end.

(** Two states of the random generator that will deliver the same draws,
    as after seeding it twice with the same seed. *)
Definition same_draws (g1 g2 : rng) : Prop := forall n, g1 n = g2 n.

(** A computation whose result is determined by the draws it is given. *)
Definition seeded {A} (c : rand A) : Prop :=
  forall g1 g2, same_draws g1 g2 ->
    fst (c g1) = fst (c g2) /\ same_draws (snd (c g1)) (snd (c g2)).

(** [k] copies of a buffer, end to end. *)
Fixpoint cycles (k : nat) (buf : list Q) : list Q :=
  match k with
  | O => []
  | S k' => buf ++ cycles k' buf
  end.

(** ** The mixer's loops in closed form *)

(** [result] after [for i, sample in enumerate(track): result[i] += sample],
    for a track no longer than [result]. *)
Fixpoint add_prefix (result track : list Q) : list Q :=
  match result, track with
  | r :: result', s :: track' => (r + s) :: add_prefix result' track'
  | _, _ => result
  end.

(** The accumulator of [mix_tracks] once every track has been added. *)
Definition track_sum (tracks : list (list Q)) : list Q :=
  fold_left add_prefix tracks (repeat 0.0 (longest tracks)).

(** [max(abs(s) for s in result)] on a non-empty [result]. *)
Definition peak_of (result : list Q) : Q :=
  match map Qabs result with
  | [] => 1.0
  | x :: l => fold_left (fun best y => if Qltb best y then y else best) l x
  end.

(** What [mix_tracks] returns for an accumulator [result]. *)
Definition normalized (result : list Q) : list Q :=
  if Qltb 0.9 (peak_of result)
  then map (fun s => s / peak_of result * 0.85) result
  else result.

(** The largest absolute sample a call can produce when [math.sin] stays
    within [-1, 1], [math.exp] within [0, 1] on non-positive arguments and
    the random draws within [0, 1]. *)
Definition amplitude_bound (c : generator) : Q :=
  match c with
  | Sine _ _ v _ _ | Beep _ _ v | UiClick _ v | Sweep _ _ _ v | Laser _ v
  | Note _ _ v _ _ | Pad _ _ v | Bass _ _ v | Arp _ _ v
  | Noise _ v _ | Explosion _ v => Qabs v
  | Door _ _ => 0.44
  | LootPickup _ _ => 0.54
  | Alert _ _ => 0.5
  | AmbientLoop _ _ => 0.32
  end.

(** A sample [y] computed from the draw [r] stays within the amplitude
    bound of the call when [r], the sine and the exponential of a
    non-positive number stay within their ranges. *)
Definition in_range {M : PyMath} (c : generator) (r y : Q) : Prop :=
  (forall x, Qabs (math_sin x) <= 1) ->
  (forall x, x <= 0 -> 0 <= math_exp x <= 1) ->
  0 <= r <= 1 ->
  Qabs y <= amplitude_bound c.

(** ** Instances for running the model *)

(** Truncated Taylor series stand in for [math.sin] and [math.exp] when a
    call is evaluated; no statement below depends on their values. *)
Definition taylor_math : PyMath :=
  {| math_sin := fun x => x - x * x * x / 6;
     math_exp := fun x => 1 + x + x * x / 2;
     math_pi := 355 / 113 |}.

(** The same series cut off at the ranges of the functions they stand
    for: a sine within [-1, 1], an exponential within [0, 1]. *)
Definition clipped_math : PyMath :=
  {| math_sin := fun x => clamp (-1) 1 (x - x * x * x / 6);
     math_exp := fun x => clamp 0 1 (1 + x + x * x / 2);
     math_pi := 355 / 113 |}.

(** A random generator that keeps drawing [q]. *)
Definition constant_rng (q : Q) : rng := fun _ => q.

(** * Properties *)

(** ** Truncation, floor and ceiling *)

Lemma Qnum_nonneg (x : Q) : 0 <= x -> (0 <= Qnum x)%Z.
Proof.
  destruct x as [n d]; unfold Qle; simpl; intros H.
  rewrite Z.mul_1_r in H. exact H.
Qed.

Lemma Qnum_nonpos (x : Q) : x <= 0 -> (Qnum x <= 0)%Z.
Proof.
  destruct x as [n d]; unfold Qle; simpl; intros H.
  rewrite Z.mul_1_r in H. exact H.
Qed.

Lemma py_int_floor (x : Q) : 0 <= x -> py_int x = Qfloor x.
Proof.
  intros H. destruct x as [n d]; unfold py_int, Qfloor; simpl.
  apply Z.quot_div_nonneg.
  - exact (Qnum_nonneg (n # d) H).
  - apply Pos2Z.is_pos.
Qed.

Lemma py_int_ceiling (x : Q) : x <= 0 -> py_int x = Qceiling x.
Proof.
  intros H. destruct x as [n d]; unfold py_int, Qceiling, Qfloor; simpl.
  pose proof (Qnum_nonpos (n # d) H) as Hn; simpl in Hn.
  rewrite <- (Z.opp_involutive n) at 1.
  rewrite Z.quot_opp_l by discriminate.
  f_equal. apply Z.quot_div_nonneg; [lia | apply Pos2Z.is_pos].
Qed.

Lemma py_int_comp (x y : Q) : x == y -> py_int x = py_int y.
Proof.
  intros E. destruct (Qlt_le_dec x 0) as [Hx | Hx].
  - rewrite !py_int_ceiling; [now rewrite E | rewrite <- E; lra | lra].
  - rewrite !py_int_floor; [now rewrite E | rewrite <- E; lra | lra].
Qed.

#[global] Instance py_int_Proper : Proper (Qeq ==> eq) py_int.
Proof. intros x y E. now apply py_int_comp. Qed.

Lemma py_int_nonneg (x : Q) : 0 <= x -> (0 <= py_int x)%Z.
Proof.
  intros H. rewrite py_int_floor by exact H.
  change 0%Z with (Qfloor 0). now apply Qfloor_resp_le.
Qed.

Lemma py_int_nonpos (x : Q) : x <= 0 -> (py_int x <= 0)%Z.
Proof.
  intros H. rewrite py_int_ceiling by exact H.
  change 0%Z with (Qceiling 0). now apply Qceiling_resp_le.
Qed.

(** Truncation moves a number by less than one, toward zero. *)
Lemma py_int_within_one (x : Q) : Qabs (inject_Z (py_int x) - x) < 1.
Proof.
  destruct (Qlt_le_dec x 0) as [Hx | Hx].
  - rewrite py_int_ceiling by lra.
    pose proof (Qle_ceiling x) as H1. pose proof (Qceiling_lt x) as H2.
    unfold Z.sub in H2. rewrite inject_Z_plus, inject_Z_opp in H2.
    change (inject_Z 1) with 1 in H2.
    apply Qabs_case; intros; lra.
  - rewrite py_int_floor by lra.
    pose proof (Qfloor_le x) as H1. pose proof (Qlt_floor x) as H2.
    rewrite inject_Z_plus in H2. change (inject_Z 1) with 1 in H2.
    apply Qabs_case; intros; lra.
Qed.

(** ** Ranges and loops *)

Lemma in_py_range (n i : Z) : In i (py_range n) <-> (0 <= i < n)%Z.
Proof.
  unfold py_range. rewrite in_map_iff. split.
  - intros (k & <- & Hk). apply in_seq in Hk. lia.
  - intros H. exists (Z.to_nat i). split; [lia | apply in_seq; lia].
Qed.

Lemma length_py_range (n : Z) : length (py_range n) = Z.to_nat n.
Proof. unfold py_range. now rewrite length_map, length_seq. Qed.

Lemma py_range_nonpos (n : Z) : (n <= 0)%Z -> py_range n = [].
Proof.
  intros H. unfold py_range. replace (Z.to_nat n) with 0%nat by lia.
  reflexivity.
Qed.

Lemma mapM_total {A B} (f : A -> outcome B) (l : list A) :
  (forall x, In x l -> exists y, f x = Ok y) ->
  exists ys, mapM f l = Ok ys /\ length ys = length l.
Proof.
  induction l as [| x l IH]; intros H; simpl.
  - now exists [].
  - destruct (H x (or_introl eq_refl)) as [y ->].
    destruct IH as (ys & -> & Hlen); [intros; apply H; now right |].
    exists (y :: ys); simpl. now rewrite Hlen.
Qed.

Lemma mapM_rand_total {A B} (f : A -> rand B) (l : list A) :
  (forall x g, In x l -> exists y g', f x g = (Ok y, g')) ->
  forall g, exists ys g', mapM_rand f l g = (Ok ys, g') /\ length ys = length l.
Proof.
  induction l as [| x l IH]; intros H g; simpl.
  - now exists [], g.
  - unfold bind_rand at 1.
    destruct (H x g (or_introl eq_refl)) as (y & g1 & ->).
    destruct (IH (fun x g Hx => H x g (or_intror Hx)) g1) as (ys & g2 & E & Hlen).
    unfold bind_rand at 1. rewrite E.
    exists (y :: ys), g2; simpl. now rewrite Hlen.
Qed.

Lemma py_div_ok (a b : Q) : ~ b == 0 -> py_div a b = Ok (a / b).
Proof.
  intros H. unfold py_div.
  destruct (Qeq_bool b 0) eqn:E; [| reflexivity].
  apply Qeq_bool_eq in E. contradiction.
Qed.

Lemma py_div_Z_ok (a : Q) (b : Z) : b <> 0%Z -> py_div a b = Ok (a / b).
Proof.
  intros H. apply py_div_ok. intros E.
  apply H. now apply (inject_Z_injective b 0).
Qed.

Lemma mapM_range_total {B} (f : Z -> outcome B) (n : Z) :
  (forall i, (0 <= i < n)%Z -> exists y, f i = Ok y) ->
  exists ys, mapM f (py_range n) = Ok ys /\ length ys = Z.to_nat n.
Proof.
  intros H. rewrite <- length_py_range. apply mapM_total.
  intros i Hi. apply H. now apply in_py_range.
Qed.

Lemma mapM_rand_range_total {B} (f : Z -> rand B) (n : Z) :
  (forall i g, (0 <= i < n)%Z -> exists y g', f i g = (Ok y, g')) ->
  forall g, exists ys g',
    mapM_rand f (py_range n) g = (Ok ys, g') /\ length ys = Z.to_nat n.
Proof.
  intros H. rewrite <- length_py_range. apply mapM_rand_total.
  intros i g Hi. apply H. now apply in_py_range.
Qed.

(** ** The envelope never divides by zero *)

Lemma fade_branch_FadeIn (n a r i : Z) :
  fade_branch n a r i = FadeIn <-> (i < a)%Z.
Proof.
  unfold fade_branch.
  destruct (Z.ltb_spec i a); [tauto |].
  destruct (i >? n - r)%Z; split; (discriminate || lia).
Qed.

Lemma fade_branch_FadeOut (n a r i : Z) :
  fade_branch n a r i = FadeOut <-> (a <= i /\ n - r < i)%Z.
Proof.
  unfold fade_branch.
  destruct (Z.ltb_spec i a); [split; [discriminate | lia] |].
  rewrite Z.gtb_ltb.
  destruct (Z.ltb_spec (n - r) i); split; (discriminate || lia || tauto).
Qed.

Lemma fade_branch_Sustain (n a r i : Z) :
  fade_branch n a r i = Sustain <-> (a <= i <= n - r)%Z.
Proof.
  unfold fade_branch.
  destruct (Z.ltb_spec i a); [split; [discriminate | lia] |].
  rewrite Z.gtb_ltb.
  destruct (Z.ltb_spec (n - r) i); split; (discriminate || lia || tauto).
Qed.

Lemma fade_envelope_total (n a r i : Z) :
  (0 <= i < n)%Z -> exists e, fade_envelope n a r i = Ok e.
Proof.
  intros Hi. unfold fade_envelope.
  destruct (fade_branch n a r i) eqn:E.
  - apply fade_branch_FadeIn in E.
    rewrite py_div_Z_ok by lia. eauto.
  - apply fade_branch_FadeOut in E.
    rewrite py_div_Z_ok by lia. eauto.
  - eauto.
Qed.

(** ** Every generator returns a buffer of [num_samples] samples *)

Section GeneratorFacts.
Context {M : PyMath}.

Import generate_audio generate_music.

(** Loop bodies that only divide by [num_samples] or by a fade length. *)
Ltac body_total :=
  intros i Hi;
  unfold generate_audio.SAMPLE_RATE, generate_music.SAMPLE_RATE in *;
  try match goal with
      | |- context [fade_envelope ?n ?a ?r i] =>
          destruct (fade_envelope_total n a r i Hi) as [e ->]
      end;
  rewrite ?py_div_Z_ok by lia; simpl; eauto.

Ltac rand_body_total :=
  intros i g0 Hi; unfold bind_rand, lift_rand, random_random, ret_rand;
  unfold generate_audio.SAMPLE_RATE in *;
  rewrite ?py_div_Z_ok by lia; simpl; eauto.

Lemma generate_sine_wave_total (f d v a r : Q) :
  exists buf, generate_sine_wave f d v a r = Ok buf
    /\ length buf = Z.to_nat (py_int (44100%Z * d)).
Proof. apply mapM_range_total. body_total. Qed.

Lemma generate_noise_total (d v r : Q) (g : rng) :
  exists buf g', generate_noise d v r g = (Ok buf, g')
    /\ length buf = Z.to_nat (py_int (44100%Z * d)).
Proof.
  apply mapM_rand_range_total. intros i g0 Hi.
  unfold bind_rand, lift_rand, random_random, ret_rand.
  unfold generate_audio.SAMPLE_RATE in *.
  destruct (Z.gtb_spec i (py_int (44100%Z * d) - py_int (44100%Z * r))).
  - rewrite py_div_Z_ok by lia. eauto.
  - eauto.
Qed.

Lemma generate_sweep_total (s e d v : Q) :
  exists buf, generate_sweep s e d v = Ok buf
    /\ length buf = Z.to_nat (py_int (44100%Z * d)).
Proof. apply mapM_range_total. body_total. Qed.

Lemma generate_explosion_total (d v : Q) (g : rng) :
  exists buf g', generate_explosion d v g = (Ok buf, g')
    /\ length buf = Z.to_nat (py_int (44100%Z * d)).
Proof. apply mapM_rand_range_total. rand_body_total. Qed.

Lemma generate_laser_total (d v : Q) :
  exists buf, generate_laser d v = Ok buf
    /\ length buf = Z.to_nat (py_int (44100%Z * d)).
Proof. apply mapM_range_total. body_total. Qed.

Lemma generate_door_total (o : bool) (d : Q) (g : rng) :
  exists buf g', generate_door o d g = (Ok buf, g')
    /\ length buf = Z.to_nat (py_int (44100%Z * d)).
Proof. apply mapM_rand_range_total. rand_body_total. Qed.

Lemma generate_loot_pickup_total (k : Z) (d : Q) :
  exists buf, generate_loot_pickup k d = Ok buf
    /\ length buf = Z.to_nat (py_int (44100%Z * d)).
Proof. apply mapM_range_total. body_total. Qed.

Lemma generate_alert_total (u : bool) (d : Q) :
  exists buf, generate_alert u d = Ok buf
    /\ length buf = Z.to_nat (py_int (44100%Z * d)).
Proof. apply mapM_range_total. body_total. Qed.

Lemma generate_ambient_loop_total (d b : Q) :
  exists buf, generate_ambient_loop d b = Ok buf
    /\ length buf = Z.to_nat (py_int (44100%Z * d)).
Proof. apply mapM_range_total. body_total. Qed.

Lemma generate_note_total (f d v a r : Q) :
  exists buf, generate_note f d v a r = Ok buf
    /\ length buf = Z.to_nat (py_int (44100%Z * d)).
Proof. apply mapM_range_total. body_total. Qed.

Lemma generate_pad_total (f d v : Q) :
  exists buf, generate_pad f d v = Ok buf
    /\ length buf = Z.to_nat (py_int (44100%Z * d)).
Proof. apply mapM_range_total. body_total. Qed.

Lemma generate_bass_total (f d v : Q) :
  exists buf, generate_bass f d v = Ok buf
    /\ length buf = Z.to_nat (py_int (44100%Z * d)).
Proof. apply mapM_range_total. body_total. Qed.

Lemma generate_arp_total (ns : list Q) (d v : Q) :
  exists buf, generate_arp ns d v = Ok buf
    /\ length buf = (length ns * Z.to_nat (py_int (44100%Z * d)))%nat.
Proof.
  induction ns as [| f ns (rest & IH & Hlen)]; simpl.
  - now exists [].
  - destruct (generate_note_total f d v 0.01 0.05) as (note & -> & Hn).
    rewrite IH. simpl. exists (note ++ rest).
    split; [reflexivity |]. rewrite length_app. lia.
Qed.

(** A call returns a buffer, whatever the state of the random generator,
    of [num_samples] samples per note played. *)
Lemma call_total (c : generator) (g : rng) :
  exists buf g', call c g = (Ok buf, g')
    /\ length buf
       = (notes_played c * Z.to_nat (py_int (44100%Z * duration_of c)))%nat.
Proof.
  destruct c; simpl call; simpl duration_of; simpl notes_played;
    rewrite ?Nat.mul_1_l; unfold lift_rand,
      generate_beep, generate_ui_click;
    try match goal with
      | |- context [?gen g] => first
          [ apply generate_noise_total
          | apply generate_explosion_total
          | apply generate_door_total ]
      end;
    match goal with
    | |- context [(generate_sine_wave ?f ?d ?v ?a ?r, g)] =>
        destruct (generate_sine_wave_total f d v a r) as (b & -> & H)
    | |- context [(generate_sweep ?s ?e ?d ?v, g)] =>
        destruct (generate_sweep_total s e d v) as (b & -> & H)
    | |- context [(generate_laser ?d ?v, g)] =>
        destruct (generate_laser_total d v) as (b & -> & H)
    | |- context [(generate_loot_pickup ?k ?d, g)] =>
        destruct (generate_loot_pickup_total k d) as (b & -> & H)
    | |- context [(generate_alert ?u ?d, g)] =>
        destruct (generate_alert_total u d) as (b & -> & H)
    | |- context [(generate_ambient_loop ?d ?f, g)] =>
        destruct (generate_ambient_loop_total d f) as (b & -> & H)
    | |- context [(generate_note ?f ?d ?v ?a ?r, g)] =>
        destruct (generate_note_total f d v a r) as (b & -> & H)
    | |- context [(generate_pad ?f ?d ?v, g)] =>
        destruct (generate_pad_total f d v) as (b & -> & H)
    | |- context [(generate_bass ?f ?d ?v, g)] =>
        destruct (generate_bass_total f d v) as (b & -> & H)
    | |- context [(generate_arp ?ns ?d ?v, g)] =>
        destruct (generate_arp_total ns d v) as (b & -> & H)
    end;
    (exists b, g; split; [reflexivity | exact H]).
Qed.

End GeneratorFacts.

(** ** Buffer lengths (C5) and non-positive durations (C2) *)









(** ** Zero-length fade windows (C8) *)

Lemma mapM_nth {A B} (f : A -> outcome B) (l : list A) (ys : list B) :
  mapM f l = Ok ys ->
  forall k da db, (k < length l)%nat -> f (nth k l da) = Ok (nth k ys db).
Proof.
  revert ys. induction l as [| x l IH]; intros ys E k da db Hk; simpl in *.
  - lia.
  - destruct (f x) as [y |] eqn:Ex; simpl in E; [| discriminate].
    destruct (mapM f l) as [ys' |] eqn:El; simpl in E; [| discriminate].
    injection E as <-.
    destruct k as [| k]; simpl; [exact Ex |].
    apply IH; [reflexivity | lia].
Qed.

Lemma nth_py_range (n i : Z) :
  (0 <= i < n)%Z -> nth (Z.to_nat i) (py_range n) 0%Z = i.
Proof.
  intros H. unfold py_range.
  rewrite (nth_indep _ 0%Z (Z.of_nat 0)) by (rewrite length_map, length_seq; lia).
  rewrite map_nth, seq_nth by lia. lia.
Qed.

(** Sample [i] of a buffer built by a [for i in range(n)] loop is the value
    the loop body computes at [i]. *)
Lemma mapM_range_nth {B} (f : Z -> outcome B) (n : Z) (ys : list B) :
  mapM f (py_range n) = Ok ys ->
  forall i db, (0 <= i < n)%Z -> f i = Ok (nth (Z.to_nat i) ys db).
Proof.
  intros E i db Hi.
  rewrite <- (nth_py_range n i Hi) at 1.
  apply mapM_nth with (1 := E). rewrite length_py_range. lia.
Qed.

Lemma fade_envelope_Sustain (n a r i : Z) :
  (a <= i <= n - r)%Z -> fade_envelope n a r i = Ok 1.0.
Proof.
  intros H. unfold fade_envelope.
  now rewrite (proj2 (fade_branch_Sustain n a r i) H).
Qed.

(** C8.  When the fade-in (attack) or the fade-out (release) window of
    [generate_sine_wave] or [generate_note] converts to 0 samples, the call
    returns without a division fault; the division branch of the empty
    window is taken at no index of the loop; and at every index outside
    the other window the envelope is 1, so that the sample is the plain
    tone scaled by the volume. *)
Theorem zero_fade_window_is_safe {M : PyMath} (f d v fade_in fade_out : Q) :
  let n := py_int (44100%Z * d) in
  let a := py_int (44100%Z * fade_in) in
  let r := py_int (44100%Z * fade_out) in
  (a = 0 \/ r = 0)%Z ->
  exists wave note,
    generate_audio.generate_sine_wave f d v fade_in fade_out = Ok wave
    /\ generate_music.generate_note f d v fade_in fade_out = Ok note
    /\ forall i, (0 <= i < n)%Z ->
         (a = 0%Z -> fade_branch n a r i <> FadeIn)
         /\ (r = 0%Z -> fade_branch n a r i <> FadeOut)
         /\ ((a = 0 /\ i <= n - r)%Z \/ (r = 0 /\ a <= i)%Z ->
             fade_envelope n a r i = Ok 1.0
             /\ nth (Z.to_nat i) wave 0
                = v * 1.0 * math_sin (2 * math_pi * f * i / 44100%Z)
             /\ nth (Z.to_nat i) note 0
                = v * 1.0 * (
                    0.6 * math_sin (2 * math_pi * f * i / 44100%Z)
                    + 0.25 * math_sin (2 * math_pi * f * 2 * i / 44100%Z)
                    + 0.15 * math_sin (2 * math_pi * f * 3 * i / 44100%Z))).
Proof.
  intros n a r Hzero.
  destruct (generate_sine_wave_total f d v fade_in fade_out) as (wave & Ew & _).
  destruct (generate_note_total f d v fade_in fade_out) as (note & En & _).
  exists wave, note. split; [exact Ew |]. split; [exact En |].
  intros i Hi. split; [| split].
  - intros Ha E. apply fade_branch_FadeIn in E. lia.
  - intros Hr E. apply fade_branch_FadeOut in E. lia.
  - intros Hout.
    assert (Henv : fade_envelope n a r i = Ok 1.0)
      by (apply fade_envelope_Sustain; lia).
    split; [exact Henv |]. split.
    + unfold generate_audio.generate_sine_wave,
        generate_audio.SAMPLE_RATE in Ew.
      pose proof (mapM_range_nth _ _ _ Ew i 0 Hi) as E.
      cbv beta in E. fold n a r in E. rewrite Henv in E.
      injection E as E. symmetry. exact E.
    + unfold generate_music.generate_note,
        generate_music.SAMPLE_RATE in En.
      pose proof (mapM_range_nth _ _ _ En i 0 Hi) as E.
      cbv beta in E. fold n a r in E. rewrite Henv in E.
      injection E as E. symmetry. exact E.
Qed.

Lemma zero_fade_window_is_safe_witness :
  (py_int (44100%Z * 0) = 0 \/ py_int (44100%Z * 0) = 0)%Z
  /\ exists wave note,
       generate_audio.generate_sine_wave (M := taylor_math) 440 (1 # 8820) 0.5 0 0
         = Ok wave
       /\ generate_music.generate_note (M := taylor_math) 440 (1 # 8820) 0.5 0 0
          = Ok note
       /\ forall i, (0 <= i < 5)%Z ->
            (0 = 0 -> fade_branch 5 0 0 i <> FadeIn)%Z
            /\ (0 = 0 -> fade_branch 5 0 0 i <> FadeOut)%Z
            /\ ((0 = 0 /\ i <= 5 - 0)%Z \/ (0 = 0 /\ 0 <= i)%Z ->
                fade_envelope 5 0 0 i = Ok 1.0
                /\ nth (Z.to_nat i) wave 0
                   = 0.5 * 1.0 * (@math_sin taylor_math)
                                   (2 * @math_pi taylor_math * 440 * i / 44100%Z)
                /\ nth (Z.to_nat i) note 0
                   = 0.5 * 1.0 * (
                       0.6 * (@math_sin taylor_math)
                               (2 * @math_pi taylor_math * 440 * i / 44100%Z)
                       + 0.25 * (@math_sin taylor_math)
                                  (2 * @math_pi taylor_math * 440 * 2 * i / 44100%Z)
                       + 0.15 * (@math_sin taylor_math)
                                  (2 * @math_pi taylor_math * 440 * 3 * i / 44100%Z))).
Proof.
  split.
  - left. reflexivity.
  - apply (zero_fade_window_is_safe (M := taylor_math) 440 (1 # 8820) 0.5 0 0).
    left. reflexivity.
Defined.

(** ** The PCM encoder (C1, C6) *)

Lemma Qltb_spec (a b : Q) : reflect (a < b) (Qltb a b).
Proof.
  unfold Qltb. destruct (Qle_bool b a) eqn:E; constructor.
  - apply Qle_bool_iff in E. lra.
  - apply Qnot_le_lt. intros H. apply Qle_bool_iff in H. congruence.
Qed.

(** The clamp [save_wav] spells with [max] and [min]. *)
Lemma max_min_is_clamp (s : Q) :
  py_max (-1.0) (py_min 1.0 s) == clamp (-1) 1 s.
Proof.
  unfold py_max, py_min, clamp.
  destruct (Qltb_spec s 1.0), (Qltb_spec s (-1)), (Qltb_spec 1 s);
    try lra;
    match goal with
    | |- context [Qltb ?a ?b] => destruct (Qltb_spec a b)
    end; lra.
Qed.

Lemma clamp_bounds (s : Q) : -1 <= clamp (-1) 1 s <= 1.
Proof.
  unfold clamp.
  destruct (Qltb_spec s (-1)), (Qltb_spec 1 s); lra.
Qed.


Lemma quantised_in_range (c : Q) :
  -1 <= c <= 1 -> (-32767 <= py_int (c * 32767) <= 32767)%Z.
Proof.
  intros [Hlo Hhi]. destruct (Qlt_le_dec c 0) as [Hc | Hc].
  - rewrite py_int_ceiling by lra.
    assert (H1 : (Qceiling (-32767) <= Qceiling (c * 32767))%Z)
      by (apply Qceiling_resp_le; lra).
    assert (H2 : (Qceiling (c * 32767) <= Qceiling 0)%Z)
      by (apply Qceiling_resp_le; lra).
    change (Qceiling (-32767)) with (-32767)%Z in H1.
    change (Qceiling 0) with 0%Z in H2. lia.
  - rewrite py_int_floor by lra.
    assert (H1 : (Qfloor 0 <= Qfloor (c * 32767))%Z)
      by (apply Qfloor_resp_le; lra).
    assert (H2 : (Qfloor (c * 32767) <= Qfloor 32767)%Z)
      by (apply Qfloor_resp_le; lra).
    change (Qfloor 0) with 0%Z in H1.
    change (Qfloor 32767) with 32767%Z in H2. lia.
Qed.

Lemma to_N_byte_of_Z (z : Z) :
  (0 <= z < 256)%Z -> Z.of_N (Byte.to_N (byte_of_Z z)) = z.
Proof.
  intros H. unfold byte_of_Z.
  destruct (Byte.of_N (Z.to_N z)) as [b |] eqn:E.
  - rewrite (Byte.to_of_N _ E). lia.
  - apply Byte.of_N_None_iff in E. lia.
Qed.

(** A packed 16-bit integer reads back as itself. *)
Lemma unpack_pack_h (v : Z) :
  (-32768 <= v <= 32767)%Z ->
  exists b0 b1, struct_pack_h v = Ok [b0; b1] /\ unpack_h b0 b1 = v.
Proof.
  intros H. unfold struct_pack_h.
  replace ((-32768 <=? v) && (v <=? 32767))%Z with true
    by (symmetry; apply andb_true_iff; split; apply Z.leb_le; lia).
  eexists _, _. split; [reflexivity |].
  unfold unpack_h.
  assert (Hu : (0 <= v mod 65536 < 65536)%Z) by (apply Z.mod_pos_bound; lia).
  rewrite !to_N_byte_of_Z.
  - replace (v mod 65536 mod 256 + 256 * (v mod 65536 / 256))%Z
      with (v mod 65536)%Z
      by (pose proof (Z.div_mod (v mod 65536) 256); lia).
    destruct (Z.ltb_spec (v mod 65536) 32768);
      Z.div_mod_to_equations; lia.
  - split; [apply Z.div_pos; lia | apply Z.div_lt_upper_bound; lia].
  - apply Z.mod_pos_bound. lia.
Qed.

Lemma write_samples_frames (samples : list Q) (w : wave_write) :
  exists w' data,
    generate_audio.write_samples samples w = Ok w'
    /\ frames w' = frames w ++ data
    /\ decode_frames data
       = Some (map (fun s => py_int (py_max (-1.0) (py_min 1.0 s) * 32767))
                   samples).
Proof.
  revert w. induction samples as [| s rest IH]; intros w; simpl.
  - exists w, []. now rewrite app_nil_r.
  - set (c := py_max (-1.0) (py_min 1.0 s)).
    assert (Hc : -1 <= c <= 1)
      by (unfold c; rewrite max_min_is_clamp; apply clamp_bounds).
    pose proof (quantised_in_range c Hc) as Hv.
    destruct (unpack_pack_h (py_int (c * 32767))) as (b0 & b1 & Ep & Eu);
      [lia |].
    rewrite Ep. simpl.
    destruct (IH (writeframes [b0; b1] w)) as (w' & data & Ew & Ef & Ed).
    exists w', (b0 :: b1 :: data). split; [exact Ew |]. split.
    + rewrite Ef. simpl. now rewrite <- app_assoc.
    + simpl. now rewrite Ed, Eu.
Qed.

(** The two scripts carry the same encoder. *)
Lemma music_write_samples_eq (samples : list Q) (w : wave_write) :
  generate_music.write_samples samples w
  = generate_audio.write_samples samples w.
Proof.
  revert w. induction samples as [| s rest IH]; intros w; simpl.
  - reflexivity.
  - destruct (struct_pack_h _); simpl; [apply IH | reflexivity].
Qed.

Lemma music_save_wav_eq (filename : string) (samples : list Q) (fs : filesystem) :
  generate_music.save_wav filename samples fs
  = generate_audio.save_wav filename samples fs.
Proof.
  unfold generate_music.save_wav, generate_audio.save_wav.
  now rewrite music_write_samples_eq.
Qed.

Lemma fs_write_same (filename : string) (w : wave_write) (fs : filesystem) :
  fs_write filename w fs filename = Some w.
Proof. unfold fs_write. now rewrite String.eqb_refl. Qed.

(** [save_wav] never raises, and the file holds one integer per sample:
    the clamped sample times 32767, truncated toward zero. *)
Lemma save_wav_written (filename : string) (samples : list Q) (fs : filesystem) :
  written filename (generate_audio.save_wav filename samples fs)
  = Some (map (fun s => py_int (py_max (-1.0) (py_min 1.0 s) * 32767)) samples).
Proof.
  unfold generate_audio.save_wav.
  destruct (write_samples_frames samples
              (setframerate generate_audio.SAMPLE_RATE
                 (setsampwidth 2 (setnchannels 1 wave_open))))
    as (w' & data & -> & Ef & Ed).
  simpl in *. rewrite fs_write_same. now rewrite Ef.
Qed.

Lemma music_save_wav_written
  (filename : string) (samples : list Q) (fs : filesystem) :
  written filename (generate_music.save_wav filename samples fs)
  = Some (map (fun s => py_int (py_max (-1.0) (py_min 1.0 s) * 32767)) samples).
Proof.
  exact (eq_trans (f_equal (written filename)
                     (music_save_wav_eq filename samples fs))
                  (save_wav_written filename samples fs)).
Qed.



(** C6.  Reading the encoded integers back as [v / 32767] gives, for every
    sample, a value within one quantisation step (1/32767) of the clamped
    sample. *)
Theorem pcm_round_trip_within_one_step
  (filename : string) (samples : list Q) (fs : filesystem) :
  exists vs,
    written filename (generate_audio.save_wav filename samples fs) = Some vs
    /\ written filename (generate_music.save_wav filename samples fs) = Some vs
    /\ Forall2 (fun s v =>
                  Qabs (inject_Z v / 32767 - clamp (-1) 1 s) <= 1 / 32767)
               samples vs.
Proof.
  eexists.
  split; [apply save_wav_written |]. split; [apply music_save_wav_written |].
  induction samples as [| s rest IH]; cbn [map]; constructor; [| exact IH].
  rewrite (py_int_comp _ (clamp (-1) 1 s * 32767))
    by (now rewrite max_min_is_clamp).
  set (c := clamp (-1) 1 s).
  pose proof (py_int_within_one (c * 32767)) as H.
  set (v := inject_Z (py_int (c * 32767))) in *.
  assert (E : v == (v / 32767) * 32767) by (field; discriminate).
  set (y := v / 32767) in *.
  change (1 / 32767) with (1 # 32767).
  revert H. apply Qabs_case; intros; apply Qabs_case; intros; lra.
Qed.

(** ** Looping a buffer (C3) *)

Section Looping.
Import generate_music.

Lemma length_cycles (k : nat) (buf : list Q) :
  length (cycles k buf) = (k * length buf)%nat.
Proof.
  induction k as [| k IH]; simpl; [reflexivity |].
  rewrite length_app, IH. reflexivity.
Qed.

Lemma cycles_snoc (k : nat) (buf : list Q) :
  cycles k buf ++ buf = cycles (S k) buf.
Proof.
  induction k as [| k IH]; simpl.
  - now rewrite app_nil_r.
  - now rewrite <- app_assoc, IH.
Qed.

(** Sample [i] of the repeated buffer is sample [i mod len(buf)] of the
    buffer: the copies are laid end to end, unchanged. *)
Lemma nth_error_cycles (k : nat) (buf : list Q) (i : nat) :
  (i < k * length buf)%nat ->
  nth_error (cycles k buf) i = nth_error buf (i mod length buf).
Proof.
  revert i. induction k as [| k IH]; intros i Hi; simpl in *; [lia |].
  destruct (Nat.lt_ge_cases i (length buf)) as [Hlt | Hge].
  - rewrite nth_error_app1 by exact Hlt. now rewrite Nat.mod_small.
  - rewrite nth_error_app2 by exact Hge.
    rewrite IH by lia. f_equal.
    replace i with ((i - length buf) + 1 * length buf)%nat at 2 by lia.
    now rewrite Nat.Div0.mod_add.
Qed.

(** With a non-empty buffer the loop returns within [target + 1] tests of
    its condition, having appended whole copies until the length reached
    the target. *)
Lemma extend_until_returns (samples : list Q) (target : Z) :
  samples <> [] ->
  forall fuel k,
    (Z.to_nat (target - Z.of_nat (k * length samples)) < fuel)%nat ->
    exists k',
      extend_until fuel samples target (cycles k samples)
      = Some (cycles k' samples)
      /\ (target <= Z.of_nat (k' * length samples))%Z
      /\ ((0 < target)%Z -> (0 < k')%nat).
Proof.
  intros Hne.
  assert (HL : (0 < length samples)%nat)
    by (destruct samples; [congruence | simpl; lia]).
  induction fuel as [| fuel IH]; intros k Hfuel; [lia |].
  simpl. rewrite length_cycles.
  destruct (Z.ltb_spec (Z.of_nat (k * length samples)) target) as [Hlt | Hge].
  - rewrite cycles_snoc. apply IH. simpl. lia.
  - exists k. split; [reflexivity |]. split; [exact Hge |].
    intros Hpos. destruct k; simpl in *; lia.
Qed.

Lemma py_slice_to_nonneg (l : list Q) (n : Z) :
  (0 <= n)%Z -> py_slice_to l n = firstn (Z.to_nat n) l.
Proof.
  intros H. unfold py_slice_to.
  destruct (Z.ltb_spec n 0); [lia | reflexivity].
Qed.



Lemma extend_until_empty_never_returns (fuel : nat) (target : Z) :
  (0 < target)%Z -> extend_until fuel [] target [] = None.
Proof.
  intros H. induction fuel as [| fuel IH]; simpl; [reflexivity |].
  destruct (Z.ltb_spec 0 target); [exact IH | lia].
Qed.


End Looping.

(** ** The mixer (C4, C7, C10) *)

Section Mixing.
Import generate_music.

Lemma fold_left_max_nat (l : list nat) (x : nat) :
  fold_left (fun best y => if (best <? y)%nat then y else best) l x
  = Nat.max x (fold_right Nat.max 0%nat l).
Proof.
  revert x. induction l as [| y l IH]; intros x; simpl.
  - lia.
  - rewrite IH. destruct (Nat.ltb_spec x y); lia.
Qed.

Lemma max_len_is_longest (tracks : list (list Q)) :
  tracks <> [] ->
  py_max_of Nat.ltb (map (@length Q) tracks) = Ok (longest tracks).
Proof.
  destruct tracks as [| t tracks]; [congruence | intros _].
  unfold py_max_of, longest. simpl. now rewrite fold_left_max_nat.
Qed.

Lemma le_longest (tracks : list (list Q)) (t : list Q) :
  In t tracks -> (length t <= longest tracks)%nat.
Proof.
  unfold longest. induction tracks as [| u tracks IH]; simpl; [tauto |].
  intros [-> | H]; [lia | specialize (IH H); lia].
Qed.

Lemma length_add_prefix (result track : list Q) :
  length (add_prefix result track) = length result.
Proof.
  revert track. induction result as [| r result IH]; intros [| s track];
    simpl; try reflexivity.
  now rewrite IH.
Qed.

Lemma add_prefix_nil (result : list Q) : add_prefix result [] = result.
Proof. now destruct result. Qed.

Lemma skipn_cons_nth_error (l : list Q) (i : nat) (x : Q) :
  nth_error l i = Some x -> skipn i l = x :: skipn (S i) l.
Proof.
  revert i. induction l as [| a l IH]; intros [| i] H; simpl in *;
    try discriminate.
  - now injection H as ->.
  - now apply IH.
Qed.

Lemma firstn_S_app (l1 : list Q) (x : Q) (l2 : list Q) :
  firstn (S (length l1)) (l1 ++ x :: l2) = l1 ++ [x].
Proof. induction l1 as [| a l1 IH]; simpl in *; congruence. Qed.

Lemma skipn_S_app (l1 : list Q) (x : Q) (l2 : list Q) :
  skipn (S (length l1)) (l1 ++ x :: l2) = l2.
Proof. induction l1 as [| a l1 IH]; simpl in *; congruence. Qed.

(** The indexed loop [result[i] += sample] from index [i] on. *)
Lemma add_from_index (track result : list Q) (i : nat) :
  (i + length track <= length result)%nat ->
  foldM (fun result '(i, sample) =>
           old <- py_getitem result i ;; py_setitem result i (old + sample))
        (enumerate_from i track) result
  = Ok (firstn i result ++ add_prefix (skipn i result) track).
Proof.
  revert result i. induction track as [| s track IH]; intros result i Hlen.
  - simpl. now rewrite add_prefix_nil, firstn_skipn.
  - simpl in Hlen. cbn [enumerate_from foldM].
    destruct (nth_error result i) as [old |] eqn:Eold;
      [| apply nth_error_None in Eold; lia].
    unfold py_getitem at 1. rewrite Eold. cbn [bind].
    unfold py_setitem at 1.
    destruct (Nat.ltb_spec i (length result)); [| lia].
    cbn [bind].
    assert (Hi : length (firstn i result) = i)
      by (rewrite length_firstn; lia).
    rewrite IH
      by (rewrite length_app; cbn [length]; rewrite Hi, length_skipn; lia).
    pose proof (firstn_S_app (firstn i result) (old + s) (skipn (S i) result))
      as E1.
    pose proof (skipn_S_app (firstn i result) (old + s) (skipn (S i) result))
      as E2.
    rewrite Hi in E1, E2. rewrite E1, E2.
    rewrite (skipn_cons_nth_error _ _ _ Eold). cbn [add_prefix].
    now rewrite <- app_assoc.
Qed.

Lemma add_track_is_add_prefix (result track : list Q) :
  (length track <= length result)%nat ->
  add_track result track = Ok (add_prefix result track).
Proof.
  intros H. unfold add_track, enumerate.
  rewrite add_from_index by (simpl; lia). reflexivity.
Qed.

Lemma foldM_add_track (tracks : list (list Q)) (acc : list Q) :
  (forall t, In t tracks -> (length t <= length acc)%nat) ->
  foldM add_track tracks acc = Ok (fold_left add_prefix tracks acc).
Proof.
  revert acc. induction tracks as [| t tracks IH]; intros acc H; simpl.
  - reflexivity.
  - rewrite add_track_is_add_prefix by (apply H; now left). simpl.
    apply IH. intros u Hu. rewrite length_add_prefix. apply H. now right.
Qed.

Lemma nth_nil_0 (i : nat) : nth i (@nil Q) 0 = 0.
Proof. now destruct i. Qed.

Lemma nth_add_prefix (result track : list Q) (i : nat) :
  (length track <= length result)%nat ->
  nth i (add_prefix result track) 0 == nth i result 0 + nth i track 0.
Proof.
  revert track i. induction result as [| r result IH]; intros [| s track] i H;
    simpl in H; try lia.
  - cbn [add_prefix]. rewrite nth_nil_0. ring.
  - rewrite add_prefix_nil, nth_nil_0. ring.
  - destruct i as [| i]; simpl; [ring | apply IH; lia].
Qed.

Lemma nth_fold_add_prefix (tracks : list (list Q)) (acc : list Q) (i : nat) :
  (forall t, In t tracks -> (length t <= length acc)%nat) ->
  nth i (fold_left add_prefix tracks acc) 0 == nth i acc 0 + sum_at tracks i.
Proof.
  revert acc. induction tracks as [| t tracks IH]; intros acc H.
  - unfold sum_at. simpl. ring.
  - cbn [fold_left]. rewrite IH.
    + rewrite nth_add_prefix by (apply H; now left).
      unfold sum_at. simpl. ring.
    + intros u Hu. rewrite length_add_prefix. apply H. now right.
Qed.

Lemma length_fold_add_prefix (tracks : list (list Q)) (acc : list Q) :
  length (fold_left add_prefix tracks acc) = length acc.
Proof.
  revert acc. induction tracks as [| t tracks IH]; intros acc; simpl.
  - reflexivity.
  - now rewrite IH, length_add_prefix.
Qed.

Lemma nth_silence (n i : nat) : nth i (repeat 0.0 n) 0 == 0.
Proof.
  revert i. induction n as [| n IH]; intros [| i]; simpl;
    try reflexivity. apply IH.
Qed.

Lemma length_track_sum (tracks : list (list Q)) :
  length (track_sum tracks) = longest tracks.
Proof. unfold track_sum. now rewrite length_fold_add_prefix, repeat_length. Qed.

(** The accumulator holds the elementwise sum of the tracks. *)
Lemma nth_track_sum (tracks : list (list Q)) (i : nat) :
  nth i (track_sum tracks) 0 == sum_at tracks i.
Proof.
  unfold track_sum. rewrite nth_fold_add_prefix.
  - rewrite nth_silence. ring.
  - intros t Ht. rewrite repeat_length. now apply le_longest.
Qed.

(** Python's [max] keeps the first of the largest items. *)
Lemma fold_left_max_Q (l : list Q) (x : Q) :
  let m := fold_left (fun best y => if Qltb best y then y else best) l x in
  (m = x \/ In m l) /\ x <= m /\ forall y, In y l -> y <= m.
Proof.
  revert x. induction l as [| y l IH]; intros x; simpl.
  - split; [now left |]. split; [lra | tauto].
  - destruct (Qltb_spec x y) as [Hlt | Hge].
    + destruct (IH y) as (Hin & Hle & Hall).
      split; [destruct Hin as [E | Hin];
              [right; left; now symmetry | right; right; exact Hin] |].
      split; [lra |].
      intros z [<- | Hz]; [exact Hle | now apply Hall].
    + destruct (IH x) as (Hin & Hle & Hall).
      split; [destruct Hin as [E | Hin];
              [left; exact E | right; right; exact Hin] |].
      split; [exact Hle |].
      intros z [<- | Hz]; [lra | now apply Hall].
Qed.

Lemma peak_of_is_peak (result : list Q) :
  result <> [] -> is_peak (peak_of result) result.
Proof.
  destruct result as [| r result]; [congruence | intros _].
  unfold peak_of. cbn [map].
  destruct (fold_left_max_Q (map Qabs result) (Qabs r)) as (Hin & Hle & Hall).
  split.
  - destruct Hin as [-> | Hin].
    + exists r. split; [now left | reflexivity].
    + apply in_map_iff in Hin as (s & Hs & Hin).
      exists s. split; [now right | now rewrite Hs].
  - intros s [<- | Hs]; [exact Hle |].
    apply Hall. now apply in_map.
Qed.

Lemma is_peak_unique (p q : Q) (buf : list Q) :
  is_peak p buf -> is_peak q buf -> p == q.
Proof.
  intros [(s & Hs & Es) Hp] [(t & Ht & Et) Hq].
  pose proof (Hp t Ht). pose proof (Hq s Hs). lra.
Qed.

Lemma scale_total (peak : Q) (l : list Q) :
  ~ peak == 0 ->
  mapM (fun s => q <- py_div s peak ;; Ok (q * 0.85)) l
  = Ok (map (fun s => s / peak * 0.85) l).
Proof.
  intros H. induction l as [| s l IH]; simpl; [reflexivity |].
  rewrite py_div_ok by exact H. simpl. now rewrite IH.
Qed.

(** [mix_tracks] in closed form: on a non-empty argument list it raises
    nothing and returns the normalised sum. *)
Lemma mix_tracks_eq (tracks : list (list Q)) :
  tracks <> [] -> mix_tracks tracks = Ok (normalized (track_sum tracks)).
Proof.
  intros Hne. unfold mix_tracks.
  rewrite max_len_is_longest by exact Hne. cbn [bind].
  rewrite foldM_add_track
    by (intros t Ht; rewrite repeat_length; now apply le_longest).
  cbn [bind]. fold (track_sum tracks).
  set (result := track_sum tracks).
  assert (Ep : match result with
               | [] => Ok 1.0
               | _ :: _ => py_max_of Qltb (map Qabs result)
               end = Ok (peak_of result)) by now destruct result.
  rewrite Ep. cbn [bind]. unfold normalized.
  destruct (Qltb_spec 0.9 (peak_of result)) as [Hlt | Hge]; [| reflexivity].
  apply scale_total. lra.
Qed.

Lemma scaled_abs (s p : Q) :
  0 < p -> Qabs (s / p * 0.85) == Qabs s * (0.85 / p).
Proof.
  intros Hp. unfold Qdiv. rewrite !Qabs_Qmult.
  rewrite (Qabs_pos (/ p)) by (apply Qlt_le_weak, Qinv_lt_0_compat, Hp).
  rewrite (Qabs_pos 0.85) by discriminate.
  ring.
Qed.

(** Scaling by [0.85 / peak] brings the peak to 0.85. *)
Lemma is_peak_scaled (p : Q) (result : list Q) :
  0 < p -> is_peak p result ->
  is_peak 0.85 (map (fun s => s / p * 0.85) result).
Proof.
  intros Hp [(s & Hs & Es) Hall]. split.
  - exists (s / p * 0.85).
    split; [exact (in_map (fun s => s / p * 0.85) _ _ Hs) |].
    rewrite scaled_abs, Es by exact Hp. field. lra.
  - intros o Ho. apply in_map_iff in Ho as (t & <- & Ht).
    rewrite scaled_abs by exact Hp.
    assert (Hk : 0 <= 0.85 / p)
      by (apply Qle_shift_div_l; [exact Hp | lra]).
    apply Qle_trans with (p * (0.85 / p)).
    + apply Qmult_le_compat_r; [now apply Hall | exact Hk].
    + apply Qle_lteq. right. field. lra.
Qed.

(** The two cases of the normalisation of a non-empty accumulator. *)
Lemma normalized_cases (result : list Q) :
  result <> [] ->
  (0.9 < peak_of result
   /\ normalized result = map (fun s => s / peak_of result * 0.85) result
   /\ is_peak 0.85 (normalized result))
  \/ (peak_of result <= 0.9 /\ normalized result = result).
Proof.
  intros Hne. pose proof (peak_of_is_peak result Hne) as Hp.
  unfold normalized.
  destruct (Qltb_spec 0.9 (peak_of result)) as [Hlt | Hge].
  - left. split; [exact Hlt |]. split; [reflexivity |].
    apply is_peak_scaled; [lra | exact Hp].
  - right. split; [lra | reflexivity].
Qed.




(** C10.  With at least one non-empty track, the peak of the buffer
    [mix_tracks] returns never exceeds 0.9: the sum is returned unchanged
    when its peak is at most 0.9, and brought to peak 0.85 otherwise. *)
Theorem mix_tracks_peak_at_most_0_9 (tracks : list (list Q)) :
  (exists t, In t tracks /\ t <> []) ->
  exists out peak,
    mix_tracks tracks = Ok out
    /\ is_peak peak out
    /\ peak <= 0.9
    /\ forall s, In s out -> Qabs s <= 0.9.
Proof.
  intros (t & Ht & Hne).
  assert (Htracks : tracks <> []) by (intros ->; exact Ht).
  assert (Hsum : track_sum tracks <> []).
  { intros E. apply (f_equal (@length Q)) in E.
    rewrite length_track_sum in E. pose proof (le_longest _ _ Ht) as Hle.
    destruct t; [congruence | simpl in *; lia]. }
  exists (normalized (track_sum tracks)).
  destruct (normalized_cases _ Hsum) as [(Hlt & En & Hpk) | (Hle & En)].
  - exists 0.85. split; [now apply mix_tracks_eq |].
    split; [exact Hpk |]. split; [discriminate |].
    intros s Hs. apply Qle_trans with 0.85; [now apply Hpk | discriminate].
  - exists (peak_of (track_sum tracks)).
    split; [now apply mix_tracks_eq |]. rewrite En.
    pose proof (peak_of_is_peak _ Hsum) as Hpk.
    split; [exact Hpk |]. split; [exact Hle |].
    intros s Hs. apply Qle_trans with (peak_of (track_sum tracks));
      [now apply Hpk | exact Hle].
Qed.

Lemma mix_tracks_peak_at_most_0_9_witness :
  (exists t, In t [[0.5; -0.25]; [0.75]] /\ t <> [])
  /\ exists out peak,
       mix_tracks [[0.5; -0.25]; [0.75]] = Ok out
       /\ is_peak peak out
       /\ peak <= 0.9
       /\ forall s, In s out -> Qabs s <= 0.9.
Proof.
  split.
  - exists [0.75]. split; [right; left; reflexivity | discriminate].
  - apply (mix_tracks_peak_at_most_0_9 [[0.5; -0.25]; [0.75]]).
    exists [0.75]. split; [right; left; reflexivity | discriminate].
Defined.

(** ** Commutativity of mixing (C7) *)

Lemma buf_eq_of_nth (a b : list Q) :
  length a = length b ->
  (forall i, nth i a 0 == nth i b 0) ->
  buf_eq a b.
Proof.
  revert b. induction a as [| x a IH]; intros [| y b] Hlen Hnth;
    simpl in Hlen; try discriminate.
  - constructor.
  - constructor.
    + exact (Hnth 0%nat).
    + apply IH; [lia |]. intros i. exact (Hnth (S i)).
Qed.

Lemma Qltb_comp (a a' b b' : Q) :
  a == a' -> b == b' -> Qltb a b = Qltb a' b'.
Proof. intros Ha Hb. unfold Qltb. now rewrite Ha, Hb. Qed.

Lemma fold_left_max_Q_comp (l l' : list Q) :
  Forall2 Qeq l l' ->
  forall x x', x == x' ->
    fold_left (fun best y => if Qltb best y then y else best) l x
    == fold_left (fun best y => if Qltb best y then y else best) l' x'.
Proof.
  induction 1 as [| y y' l l' Hy Hl IH]; intros x x' Hx; simpl.
  - exact Hx.
  - rewrite (Qltb_comp x x' y y' Hx Hy).
    destruct (Qltb x' y'); now apply IH.
Qed.

Lemma peak_of_comp (a b : list Q) : buf_eq a b -> peak_of a == peak_of b.
Proof.
  intros H. unfold peak_of. destruct H as [| x y a b Hxy Hab]; simpl.
  - reflexivity.
  - apply fold_left_max_Q_comp; [| now rewrite Hxy].
    clear x y Hxy. induction Hab as [| x y a b Hxy Hab IH]; simpl;
      constructor; [now rewrite Hxy | exact IH].
Qed.

Lemma scaled_comp (p p' : Q) (a b : list Q) :
  p == p' -> buf_eq a b ->
  buf_eq (map (fun s => s / p * 0.85) a) (map (fun s => s / p' * 0.85) b).
Proof.
  intros Hp H. induction H as [| x y a b Hxy Hab IH]; cbn [map]; constructor.
  - now rewrite Hxy, Hp.
  - exact IH.
Qed.

(** Normalisation maps equal buffers to equal buffers. *)
Lemma normalized_comp (a b : list Q) :
  buf_eq a b -> buf_eq (normalized a) (normalized b).
Proof.
  intros H. pose proof (peak_of_comp a b H) as Hp. unfold normalized.
  rewrite (Qltb_comp 0.9 0.9 _ _ (Qeq_refl _) Hp).
  destruct (Qltb 0.9 (peak_of b)); [| exact H].
  now apply scaled_comp.
Qed.

(** C7.  Mixing two tracks, of equal or unequal length, gives the same
    buffer in either order, sample by sample. *)
Theorem mix_tracks_commutative (A B : list Q) :
  exists ab ba,
    mix_tracks [A; B] = Ok ab
    /\ mix_tracks [B; A] = Ok ba
    /\ buf_eq ab ba.
Proof.
  exists (normalized (track_sum [A; B])), (normalized (track_sum [B; A])).
  split; [apply mix_tracks_eq; discriminate |].
  split; [apply mix_tracks_eq; discriminate |].
  apply normalized_comp, buf_eq_of_nth.
  - rewrite !length_track_sum. unfold longest. simpl. lia.
  - intros i. rewrite !nth_track_sum. unfold sum_at. simpl. ring.
Qed.

End Mixing.

(** ** Determinism and the random generator (C9) *)

Lemma seeded_ret {A} (a : A) : seeded (ret_rand a).
Proof. intros g1 g2 H. now split. Qed.

Lemma seeded_lift {A} (c : outcome A) : seeded (lift_rand c).
Proof. intros g1 g2 H. now split. Qed.

Lemma seeded_random : seeded random_random.
Proof.
  intros g1 g2 H. unfold random_random; simpl. split.
  - now rewrite (H 0%nat).
  - intros n. apply H.
Qed.

Lemma seeded_bind {A B} (c : rand A) (k : A -> rand B) :
  seeded c -> (forall a, seeded (k a)) -> seeded (bind_rand c k).
Proof.
  intros Hc Hk g1 g2 H. unfold bind_rand.
  destruct (Hc g1 g2 H) as [E Hg].
  destruct (c g1) as [[a1 | e1] g1'], (c g2) as [[a2 | e2] g2'];
    simpl in E, Hg; try discriminate.
  - injection E as ->. now apply Hk.
  - injection E as ->. split; [reflexivity | exact Hg].
Qed.

Lemma seeded_mapM {A B} (f : A -> rand B) (l : list A) :
  (forall x, seeded (f x)) -> seeded (mapM_rand f l).
Proof.
  intros Hf. induction l as [| x l IH]; simpl.
  - apply seeded_ret.
  - apply seeded_bind; [apply Hf |]. intros y.
    apply seeded_bind; [exact IH |]. intros ys. apply seeded_ret.
Qed.

Section Determinism.
Context {M : PyMath}.

(** Every call is a function of its arguments and of the draws it gets. *)
Lemma seeded_call (c : generator) : seeded (call c).
Proof.
  destruct c; simpl; try apply seeded_lift;
    apply seeded_mapM; intros i;
    repeat (apply seeded_bind; [| intros ?]);
    try apply seeded_lift; try apply seeded_random; apply seeded_ret.
Qed.

(** A generator that does not call [random.random()] returns the same
    buffer under every state of the random generator and leaves the state
    as it found it. *)
Lemma tone_only_ignores_rng (c : generator) (g1 g2 : rng) :
  uses_random c = false -> call c g1 = (fst (call c g2), g1).
Proof. destruct c; simpl; intros H; (discriminate H || reflexivity). Qed.

Lemma noise_not_reproducible :
  ~ same_outcome (fst (call (Noise (1 # 44100) 0.3 0.1) (constant_rng 0)))
                 (fst (call (Noise (1 # 44100) 0.3 0.1) (constant_rng 0.5))).
Proof.
  unfold call, generate_audio.generate_noise, generate_audio.SAMPLE_RATE.
  change (py_int (44100%Z * (1 # 44100))) with 1%Z.
  change (py_int (44100%Z * 0.1)) with 4410%Z.
  change (py_range 1) with [0%Z].
  cbn [mapM_rand].
  change (0 >? 1 - 4410)%Z with true. cbv iota.
  change (py_div (1 - 0)%Z 4410%Z) with (Ok (1 # 4410)).
  unfold bind_rand, lift_rand, random_random, ret_rand, constant_rng.
  cbn [fst same_outcome].
  intros H. inversion H as [| x1 x2 l1 l2 Hx _]; subst.
  lra.
Qed.

Lemma explosion_not_reproducible :
  ~ math_exp 0 == 0 ->
  ~ same_outcome (fst (call (Explosion (1 # 44100) 0.7) (constant_rng 0)))
                 (fst (call (Explosion (1 # 44100) 0.7) (constant_rng 0.5))).
Proof.
  intros Hexp.
  unfold call, generate_audio.generate_explosion, generate_audio.SAMPLE_RATE.
  change (py_int (44100%Z * (1 # 44100))) with 1%Z.
  change (py_range 1) with [0%Z].
  cbn [mapM_rand].
  unfold bind_rand, lift_rand, random_random, ret_rand, constant_rng.
  change (py_div 0%Z 1%Z) with (Ok 0).
  cbn [fst same_outcome].
  change (- 0 * 5) with 0.
  intros H. inversion H as [| x1 x2 l1 l2 Hx _]; subst.
  apply Hexp.
  set (E := math_exp 0) in *.
  match type of Hx with
  | ?a == ?b => assert (K : E == (b - a) * (200 # 70)) by ring
  end.
  rewrite K, Hx. ring.
Qed.

Lemma door_not_reproducible :
  ~ same_outcome (fst (call (Door true (2 # 44100)) (constant_rng 0)))
                 (fst (call (Door true (2 # 44100)) (constant_rng 0.5))).
Proof.
  unfold call, generate_audio.generate_door, generate_audio.SAMPLE_RATE.
  change (py_int (44100%Z * (2 # 44100))) with 2%Z.
  change (py_range 2) with [0%Z; 1%Z].
  cbn [mapM_rand].
  unfold bind_rand, lift_rand, random_random, ret_rand, constant_rng.
  change (py_div 0%Z 2%Z) with (Ok (0 # 2)).
  change (py_div 1%Z 2%Z) with (Ok (1 # 2)).
  cbn [fst same_outcome].
  intros H. inversion H as [| x1 x2 l1 l2 _ H2]; subst. clear H.
  inversion H2 as [| y1 y2 k1 k2 Hy _]; subst. clear H2.
  change (0.4 * (1 - Qabs ((1 # 2) - 0.5) * 2)) with (0.4 * (1 - 0 * 2)) in Hy.
  lra.
Qed.

(** C9.  The tone-only generators (all but [generate_noise],
    [generate_explosion] and [generate_door]) are deterministic: a call
    returns the same buffer whatever the state of the random generator, and
    does not advance it.  The three noise-bearing generators are not: for
    the same arguments two runs can return different buffers (for the
    explosion, as long as exp(0) is not 0, which blanks its envelope).
    They are reproducible only by seeding: generator states that deliver
    the same draws give the same buffer. *)
Theorem tone_only_deterministic_noise_not :
  ~ math_exp 0 == 0 ->
  (forall c g1 g2,
     uses_random c = false -> call c g1 = (fst (call c g2), g1))
  /\ (forall c g1 g2,
        same_draws g1 g2 -> fst (call c g1) = fst (call c g2))
  /\ (exists d v fade_out g1 g2,
        ~ same_outcome (fst (call (Noise d v fade_out) g1))
                       (fst (call (Noise d v fade_out) g2)))
  /\ (exists d v g1 g2,
        ~ same_outcome (fst (call (Explosion d v) g1))
                       (fst (call (Explosion d v) g2)))
  /\ (exists opening d g1 g2,
        ~ same_outcome (fst (call (Door opening d) g1))
                       (fst (call (Door opening d) g2))).
Proof.
  intros Hexp. split; [| split; [| split; [| split]]].
  - intros c g1 g2 H. now apply tone_only_ignores_rng.
  - intros c g1 g2 H. now apply seeded_call.
  - exists (1 # 44100), 0.3, 0.1, (constant_rng 0), (constant_rng 0.5).
    exact noise_not_reproducible.
  - exists (1 # 44100), 0.7, (constant_rng 0), (constant_rng 0.5).
    exact (explosion_not_reproducible Hexp).
  - exists true, (2 # 44100), (constant_rng 0), (constant_rng 0.5).
    exact door_not_reproducible.
Qed.

End Determinism.

Lemma tone_only_deterministic_noise_not_witness :
  ~ @math_exp taylor_math 0 == 0
  /\ exists d v g1 g2,
       ~ same_outcome (fst (call (M := taylor_math) (Explosion d v) g1))
                      (fst (call (M := taylor_math) (Explosion d v) g2)).
Proof.
  assert (H : ~ @math_exp taylor_math 0 == 0) by discriminate.
  split; [exact H |].
  exact (proj1 (proj2 (proj2 (proj2
           (tone_only_deterministic_noise_not (M := taylor_math) H))))).
Defined.

(** * Further properties *)

(** ** The generators: exceptions, envelope, first sample *)

Section MoreGeneratorFacts.
Context {M : PyMath}.


End MoreGeneratorFacts.

Lemma Qdiv_Z_unit (i a : Z) :
  (0 <= i <= a)%Z -> (0 < a)%Z -> 0 <= inject_Z i / inject_Z a <= 1.
Proof.
  intros [H0 H1] Ha.
  assert (Ha' : 0 < inject_Z a)
    by (change 0 with (inject_Z 0); now rewrite <- Zlt_Qlt).
  split.
  - apply Qle_shift_div_l; [exact Ha' |].
    rewrite Qmult_0_l. change 0 with (inject_Z 0). now rewrite <- Zle_Qle.
  - apply Qle_shift_div_r; [exact Ha' |].
    rewrite Qmult_1_l. now rewrite <- Zle_Qle.
Qed.

Lemma fade_envelope_bounds (n a r i : Z) :
  (0 <= i < n)%Z ->
  exists e, fade_envelope n a r i = Ok e /\ 0 <= e <= 1.
Proof.
  intros Hi. unfold fade_envelope.
  destruct (fade_branch n a r i) eqn:E.
  - apply fade_branch_FadeIn in E.
    rewrite py_div_Z_ok by lia. eexists. split; [reflexivity |].
    apply Qdiv_Z_unit; lia.
  - apply fade_branch_FadeOut in E.
    rewrite py_div_Z_ok by lia. eexists. split; [reflexivity |].
    apply Qdiv_Z_unit; lia.
  - exists 1.0. split; [reflexivity |]. split; discriminate.
Qed.

(** At every index of the loop the envelope of [generate_sine_wave] and
    [generate_note] is a number between 0 and 1, also when the two fade
    windows overlap or exceed the buffer. *)
Theorem fade_envelope_unit_interval (n a r i : Z) :
  (0 <= i < n)%Z ->
  exists e, fade_envelope n a r i = Ok e /\ 0 <= e <= 1.
Proof. exact (fade_envelope_bounds n a r i). Qed.

Lemma fade_envelope_unit_interval_witness :
  (0 <= 3 < 10)%Z
  /\ exists e, fade_envelope 10 4 4 3 = Ok e /\ 0 <= e <= 1.
Proof.
  split; [lia |].
  apply (fade_envelope_unit_interval 10 4 4 3). lia.
Defined.

(** ** Amplitudes *)

Lemma Qabs_le_iff (x b : Q) : Qabs x <= b <-> - b <= x <= b.
Proof. apply Qabs_Qle_condition. Qed.

Lemma mult_le_unit (x y : Q) : 0 <= x -> 0 <= y <= 1 -> 0 <= x * y <= x.
Proof. intros Hx [H0 H1]. split; nra. Qed.

Lemma abs_scaled (v e x : Q) :
  0 <= e <= 1 -> Qabs x <= 1 -> Qabs (v * e * x) <= Qabs v.
Proof.
  intros He Hx. rewrite !Qabs_Qmult, (Qabs_pos e) by apply He.
  pose proof (Qabs_nonneg v) as HV. pose proof (Qabs_nonneg x) as HX.
  destruct (mult_le_unit (Qabs v) e HV He) as [H1 H2].
  destruct (mult_le_unit (Qabs v * e) (Qabs x) H1 (conj HX Hx)) as [H3 H4].
  lra.
Qed.

Lemma abs_weighted (w x b : Q) :
  0 <= w <= b -> Qabs x <= 1 -> Qabs (w * x) <= b.
Proof.
  intros [H0 H1] Hx. rewrite Qabs_Qmult, (Qabs_pos w) by exact H0.
  destruct (mult_le_unit w (Qabs x) H0 (conj (Qabs_nonneg x) Hx)). lra.
Qed.

Lemma py_min_unit (x : Q) : 0 <= x -> 0 <= py_min 1.0 x <= 1.
Proof.
  intros H. unfold py_min. destruct (Qltb_spec x 1.0); lra.
Qed.

Lemma mapM_Forall {A B} (f : A -> outcome B) (P : B -> Prop)
  (l : list A) (ys : list B) :
  mapM f l = Ok ys ->
  (forall x y, In x l -> f x = Ok y -> P y) ->
  Forall P ys.
Proof.
  revert ys. induction l as [| x l IH]; intros ys E H; simpl in E.
  - injection E as <-. constructor.
  - destruct (f x) as [y |] eqn:Ex; simpl in E; [| discriminate].
    destruct (mapM f l) as [ys' |] eqn:El; simpl in E; [| discriminate].
    injection E as <-. constructor.
    + apply (H x y); [now left | exact Ex].
    + apply IH; [reflexivity |]. intros x' y' Hx'. apply H. now right.
Qed.

Lemma mapM_range_Forall {B} (f : Z -> outcome B) (P : B -> Prop)
  (n : Z) (ys : list B) :
  mapM f (py_range n) = Ok ys ->
  (forall i y, (0 <= i < n)%Z -> f i = Ok y -> P y) ->
  Forall P ys.
Proof.
  intros E H. apply (mapM_Forall f P _ _ E).
  intros i y Hi. apply H. now apply in_py_range.
Qed.

Section Amplitudes.
Context {M : PyMath}.
Hypothesis sin_bounded : forall x, Qabs (math_sin x) <= 1.

(** Name every [math.sin] value of the goal and keep its bounds only. *)
Ltac sin_bounds :=
  repeat match goal with
    | |- context [math_sin ?x] =>
        let s := fresh "s" in
        let H := fresh "Hs" in
        pose proof (proj1 (Qabs_le_iff _ _) (sin_bounded x)) as H;
        set (s := math_sin x) in *; clearbody s
    end.

(** The fractional position [t = i / num_samples] of a loop index. *)
Ltac position i n Hi :=
  let Ht := fresh "Ht" in
  pose proof (Qdiv_Z_unit i n) as Ht;
  rewrite (py_div_Z_ok i n) in * by lia;
  specialize (Ht ltac:(lia) ltac:(lia));
  set (t := inject_Z i / inject_Z n) in *; clearbody t.

Ltac loop_body E :=
  eapply mapM_range_Forall; [exact E |];
  let i := fresh "i" in let y := fresh "y" in
  let Hi := fresh "Hi" in let Hy := fresh "Hy" in
  intros i y Hi Hy; cbv beta in Hy.

Lemma sine_wave_bounded (f d v a r : Q) (buf : list Q) :
  generate_audio.generate_sine_wave f d v a r = Ok buf ->
  Forall (fun s => Qabs s <= Qabs v) buf.
Proof.
  intros E. unfold generate_audio.generate_sine_wave in E.
  eapply mapM_range_Forall; [exact E |].
  intros i y Hi Hy. cbv beta in Hy.
  destruct (fade_envelope_bounds _ (py_int (generate_audio.SAMPLE_RATE * a))
              (py_int (generate_audio.SAMPLE_RATE * r)) i Hi) as (e & He & Hb).
  rewrite He in Hy. injection Hy as <-.
  apply abs_scaled; [exact Hb | apply sin_bounded].
Qed.

Lemma note_bounded (f d v a r : Q) (buf : list Q) :
  generate_music.generate_note f d v a r = Ok buf ->
  Forall (fun s => Qabs s <= Qabs v) buf.
Proof.
  intros E. unfold generate_music.generate_note in E.
  eapply mapM_range_Forall; [exact E |].
  intros i y Hi Hy. cbv beta in Hy.
  destruct (fade_envelope_bounds _ (py_int (generate_music.SAMPLE_RATE * a))
              (py_int (generate_music.SAMPLE_RATE * r)) i Hi) as (e & He & Hb).
  rewrite He in Hy. injection Hy as <-.
  apply abs_scaled; [exact Hb |].
  sin_bounds. apply Qabs_le_iff. lra.
Qed.

Lemma pad_bounded (f d v : Q) (buf : list Q) :
  generate_music.generate_pad f d v = Ok buf ->
  Forall (fun s => Qabs s <= Qabs v) buf.
Proof.
  intros E. unfold generate_music.generate_pad in E.
  eapply mapM_range_Forall; [exact E |].
  intros i y Hi Hy. cbv beta zeta in Hy. injection Hy as <-.
  match goal with
  | |- Qabs (v * ?x) <= _ =>
      setoid_replace (v * x) with (v * 1 * x) by ring
  end.
  apply abs_scaled; [split; discriminate |].
  sin_bounds. apply Qabs_le_iff. lra.
Qed.

Lemma bass_bounded (f d v : Q) (buf : list Q) :
  generate_music.generate_bass f d v = Ok buf ->
  Forall (fun s => Qabs s <= Qabs v) buf.
Proof.
  intros E. unfold generate_music.generate_bass in E.
  eapply mapM_range_Forall; [exact E |].
  intros i y Hi Hy. cbv beta in Hy.
  position i (py_int (generate_music.SAMPLE_RATE * d)) Hi.
  cbn [bind] in Hy. cbv zeta in Hy. injection Hy as <-.
  apply abs_scaled; [| sin_bounds; apply Qabs_le_iff; lra].
  assert (Hq : 0 <= inject_Z i / (inject_Z generate_music.SAMPLE_RATE * 0.02)).
  { apply Qle_shift_div_l; [reflexivity |].
    rewrite Qmult_0_l. change 0 with (inject_Z 0). rewrite <- Zle_Qle. lia. }
  pose proof (py_min_unit _ Hq) as Hp.
  destruct (mult_le_unit _ (1 - t * 0.2) (proj1 Hp)) as [H1 H2]; [lra |].
  lra.
Qed.

Lemma sweep_bounded (s e d v : Q) (buf : list Q) :
  generate_audio.generate_sweep s e d v = Ok buf ->
  Forall (fun x => Qabs x <= Qabs v) buf.
Proof.
  intros E. unfold generate_audio.generate_sweep in E.
  eapply mapM_range_Forall; [exact E |].
  intros i y Hi Hy. cbv beta in Hy.
  position i (py_int (generate_audio.SAMPLE_RATE * d)) Hi.
  cbn [bind] in Hy. cbv zeta in Hy. injection Hy as <-.
  apply abs_scaled; [lra | apply sin_bounded].
Qed.

Lemma laser_bounded (d v : Q) (buf : list Q) :
  generate_audio.generate_laser d v = Ok buf ->
  Forall (fun x => Qabs x <= Qabs v) buf.
Proof.
  intros E. unfold generate_audio.generate_laser in E.
  eapply mapM_range_Forall; [exact E |].
  intros i y Hi Hy. cbv beta in Hy.
  position i (py_int (generate_audio.SAMPLE_RATE * d)) Hi.
  cbn [bind] in Hy. cbv zeta in Hy. injection Hy as <-.
  match goal with
  | |- Qabs (?e * v * ?x) <= _ =>
      setoid_replace (e * v * x) with (v * e * x) by ring
  end.
  apply abs_scaled; [lra | apply sin_bounded].
Qed.

Lemma loot_pickup_bounded (k : Z) (d : Q) (buf : list Q) :
  generate_audio.generate_loot_pickup k d = Ok buf ->
  Forall (fun x => Qabs x <= 0.54) buf.
Proof.
  intros E. unfold generate_audio.generate_loot_pickup in E.
  eapply mapM_range_Forall; [exact E |].
  intros i y Hi Hy. cbv beta in Hy.
  position i (py_int (generate_audio.SAMPLE_RATE * d)) Hi.
  cbn [bind] in Hy. cbv zeta in Hy. injection Hy as <-.
  set (w := 0.4 * (1 - t * 0.5)).
  assert (Hw : 0 <= w <= 0.4) by (unfold w; lra).
  assert (H1 : forall x, Qabs (w * math_sin x) <= 0.4)
    by (intros x; apply abs_weighted; [exact Hw | apply sin_bounded]).
  assert (H2 : forall x, Qabs (0.2 * w * math_sin x) <= 0.08)
    by (intros x; apply abs_weighted; [lra | apply sin_bounded]).
  assert (H3 : forall x, Qabs (0.15 * w * math_sin x) <= 0.06)
    by (intros x; apply abs_weighted; [lra | apply sin_bounded]).
  repeat match goal with
    | |- context [w * math_sin ?x] =>
        let p := fresh "p" in
        pose proof (proj1 (Qabs_le_iff _ _) (H1 x));
        set (p := w * math_sin x) in *; clearbody p
    | |- context [0.2 * w * math_sin ?x] =>
        let p := fresh "p" in
        pose proof (proj1 (Qabs_le_iff _ _) (H2 x));
        set (p := 0.2 * w * math_sin x) in *; clearbody p
    | |- context [0.15 * w * math_sin ?x] =>
        let p := fresh "p" in
        pose proof (proj1 (Qabs_le_iff _ _) (H3 x));
        set (p := 0.15 * w * math_sin x) in *; clearbody p
    end.
  apply Qabs_le_iff.
  destruct (k >=? 2)%Z, (k >=? 4)%Z; lra.
Qed.

Lemma alert_bounded (u : bool) (d : Q) (buf : list Q) :
  generate_audio.generate_alert u d = Ok buf ->
  Forall (fun x => Qabs x <= 0.5) buf.
Proof.
  intros E. unfold generate_audio.generate_alert in E.
  eapply mapM_range_Forall; [exact E |].
  intros i y Hi Hy. cbv beta in Hy.
  position i (py_int (generate_audio.SAMPLE_RATE * d)) Hi.
  cbn [bind] in Hy. cbv zeta in Hy. injection Hy as <-.
  apply abs_weighted; [| apply sin_bounded].
  pose proof (sin_bounded (t * 20)) as Hs. apply Qabs_le_iff in Hs.
  set (pulse := 0.5 + 0.5 * math_sin (t * 20)).
  assert (Hpulse : 0 <= pulse <= 1) by (unfold pulse; lra).
  destruct (mult_le_unit pulse (1 - t * 0.3)) as [H1 H2]; [lra | lra |].
  setoid_replace (0.5 * pulse * (1 - t * 0.3))
    with (0.5 * (pulse * (1 - t * 0.3))) by ring.
  lra.
Qed.

Lemma ambient_loop_bounded (d b : Q) (buf : list Q) :
  generate_audio.generate_ambient_loop d b = Ok buf ->
  Forall (fun x => Qabs x <= 0.32) buf.
Proof.
  intros E. unfold generate_audio.generate_ambient_loop in E.
  eapply mapM_range_Forall; [exact E |].
  intros i y Hi Hy. cbv beta zeta in Hy. injection Hy as <-.
  sin_bounds. apply Qabs_le_iff. lra.
Qed.

Lemma arp_bounded (ns : list Q) (d v : Q) (buf : list Q) :
  generate_music.generate_arp ns d v = Ok buf ->
  Forall (fun x => Qabs x <= Qabs v) buf.
Proof.
  revert buf. induction ns as [| f ns IH]; intros buf E; simpl in E.
  - injection E as <-. constructor.
  - destruct (generate_music.generate_note f d v 0.01 0.05) as [note |] eqn:En;
      simpl in E; [| discriminate].
    destruct (generate_music.generate_arp ns d v) as [rest |];
      simpl in E; [| discriminate].
    injection E as <-. apply Forall_app. split.
    + now apply note_bounded in En.
    + now apply IH.
Qed.

Lemma tone_call_bounded (c : generator) (g : rng) (buf : list Q) :
  uses_random c = false ->
  fst (call c g) = Ok buf ->
  Forall (fun s => Qabs s <= amplitude_bound c) buf.
Proof.
  destruct c; simpl; intros Hr E; try discriminate Hr;
    unfold generate_audio.generate_beep, generate_audio.generate_ui_click in E;
    eauto using sine_wave_bounded, sweep_bounded, laser_bounded,
      loot_pickup_bounded, alert_bounded, ambient_loop_bounded,
      note_bounded, pad_bounded, bass_bounded, arp_bounded.
Qed.

End Amplitudes.

(** With a sine that stays within [-1, 1], no sample of a tone-only
    generator exceeds the call's amplitude bound: the volume for the
    generators that take one, 0.54 for the loot pickup, 0.5 for the alert
    and 0.32 for the ambient loop.  With a volume of at most 1 the samples
    are within [-1, 1] and the encoder's clamp leaves them alone. *)
Theorem tone_samples_within_amplitude_bound {M : PyMath}
  (c : generator) (g : rng) :
  (forall x, Qabs (math_sin x) <= 1) ->
  uses_random c = false ->
  exists buf,
    fst (call c g) = Ok buf
    /\ Forall (fun s => Qabs s <= amplitude_bound c) buf
    /\ (amplitude_bound c <= 1 ->
        Forall (fun s => py_max (-1.0) (py_min 1.0 s) == s) buf).
Proof.
  intros Hsin Hr. destruct (call_total c g) as (buf & g' & E & _).
  exists buf. rewrite E. split; [reflexivity |].
  pose proof (tone_call_bounded Hsin c g buf Hr) as Hb.
  rewrite E in Hb. specialize (Hb eq_refl). split; [exact Hb |].
  intros Hle. eapply Forall_impl; [| exact Hb].
  intros s Hs. cbv beta in Hs. apply Qabs_le_iff in Hs.
  rewrite max_min_is_clamp. unfold clamp.
  destruct (Qltb_spec s (-1)), (Qltb_spec 1 s); lra.
Qed.

Lemma clipped_sin_bounded (x : Q) : Qabs (@math_sin clipped_math x) <= 1.
Proof. apply Qabs_le_iff. apply clamp_bounds. Qed.

Lemma tone_samples_within_amplitude_bound_witness :
  (forall x, Qabs (@math_sin clipped_math x) <= 1)
  /\ uses_random (Pad 220 (3 # 44100) 0.2) = false
  /\ exists buf,
       fst (call (M := clipped_math) (Pad 220 (3 # 44100) 0.2)
                 (constant_rng 0.5)) = Ok buf
       /\ Forall (fun s => Qabs s <= Qabs 0.2) buf.
Proof.
  split; [exact clipped_sin_bounded |]. split; [reflexivity |].
  destruct (tone_samples_within_amplitude_bound (M := clipped_math)
              (Pad 220 (3 # 44100) 0.2) (constant_rng 0.5)
              clipped_sin_bounded eq_refl) as (buf & E & Hb & _).
  exists buf. split; [exact E | exact Hb].
Defined.

(** ** The noise-bearing generators and the draws they take *)

(** A loop whose body takes exactly one draw per index leaves the random
    generator advanced by the number of indices, and its [k]-th result is
    computed from the [k]-th draw. *)
Lemma mapM_rand_draws {A B} (f : A -> rand B) (P : A -> Q -> B -> Prop)
  (l : list A) :
  (forall x g, In x l ->
     exists y, f x g = (Ok y, fun n => g (S n)) /\ P x (g 0%nat) y) ->
  forall g, exists ys,
    mapM_rand f l g = (Ok ys, fun n => g (length l + n)%nat)
    /\ length ys = length l
    /\ forall k dx dy, (k < length l)%nat ->
         P (nth k l dx) (g k) (nth k ys dy).
Proof.
  induction l as [| x l IH]; intros H g.
  - exists []. repeat split. intros k dx dy Hk. simpl in Hk. lia.
  - destruct (H x g (or_introl eq_refl)) as (y & Ey & Py).
    destruct (IH (fun x g Hx => H x g (or_intror Hx)) (fun n => g (S n)))
      as (ys & Eys & Hlen & Hnth).
    exists (y :: ys). split; [| split].
    + cbn [mapM_rand]. unfold bind_rand at 1. rewrite Ey.
      unfold bind_rand at 1. rewrite Eys. reflexivity.
    + simpl. now rewrite Hlen.
    + intros [| k] dx dy Hk; simpl in *; [exact Py |].
      apply (Hnth k dx dy). lia.
Qed.

Lemma abs_prod_bound (w x b c : Q) :
  0 <= w <= b -> Qabs x <= c -> Qabs (w * x) <= b * c.
Proof.
  intros [H0 H1] Hx. rewrite Qabs_Qmult, (Qabs_pos w) by exact H0.
  pose proof (Qabs_nonneg x) as HX. set (X := Qabs x) in *. nra.
Qed.

Section NoiseFacts.
Context {M : PyMath}.

Lemma noise_body (d v fo : Q) (i : Z) (g : rng) :
  let n := py_int (generate_audio.SAMPLE_RATE * d) in
  let r := py_int (generate_audio.SAMPLE_RATE * fo) in
  (0 <= i < n)%Z ->
  exists y,
    (envelope <~ lift_rand
       (if (i >? n - r)%Z then py_div (n - i)%Z r else Ok 1.0) ;;
     x <~ random_random ;;
     ret_rand (v * envelope * (x * 2 - 1))) g
    = (Ok y, fun k => g (S k))
    /\ in_range (Noise d v fo) (g 0%nat) y.
Proof.
  intros n r Hi. unfold bind_rand, lift_rand, random_random, ret_rand.
  assert (He : exists e,
             (if (i >? n - r)%Z then py_div (n - i)%Z r else Ok 1.0) = Ok e
             /\ 0 <= e <= 1).
  { destruct (Z.gtb_spec i (n - r)) as [Hgt | Hle].
    - rewrite py_div_Z_ok by lia. eexists. split; [reflexivity |].
      apply Qdiv_Z_unit; lia.
    - exists 1.0. split; [reflexivity | split; discriminate]. }
  destruct He as (e & -> & Hb).
  eexists. split; [reflexivity |].
  intros _ _ Hr. simpl amplitude_bound.
  apply abs_scaled; [exact Hb |]. apply Qabs_le_iff. lra.
Qed.

Lemma explosion_body (d v : Q) (i : Z) (g : rng) :
  let n := py_int (generate_audio.SAMPLE_RATE * d) in
  (0 <= i < n)%Z ->
  exists y,
    (t <~ lift_rand (py_div i n) ;;
     let envelope := math_exp (- t * 5) * v in
     let low_freq := 50 + 30 * math_sin (t * 10) in
     x <~ random_random ;;
     ret_rand (envelope
               * (0.5 * math_sin (2 * math_pi * low_freq * i
                                  / generate_audio.SAMPLE_RATE)
                  + 0.5 * (x * 2 - 1)))) g
    = (Ok y, fun k => g (S k))
    /\ in_range (Explosion d v) (g 0%nat) y.
Proof.
  intros n Hi. unfold bind_rand, lift_rand, random_random, ret_rand.
  pose proof (Qdiv_Z_unit i n ltac:(lia) ltac:(lia)) as Ht.
  rewrite py_div_Z_ok by lia. cbv zeta.
  eexists. split; [reflexivity |].
  intros Hsin Hexp Hr. simpl amplitude_bound.
  set (t := inject_Z i / inject_Z n) in *.
  pose proof (Hexp (- t * 5) ltac:(lra)) as He.
  match goal with
  | |- Qabs (?e * v * ?x) <= _ =>
      setoid_replace (e * v * x) with (v * e * x) by ring
  end.
  apply abs_scaled; [exact He |].
  match goal with
  | |- context [0.5 * math_sin ?x] =>
      pose proof (proj1 (Qabs_le_iff _ _) (Hsin x));
      set (s := math_sin x) in *; clearbody s
  end.
  apply Qabs_le_iff. lra.
Qed.

Lemma door_body (o : bool) (d : Q) (i : Z) (g : rng) :
  let n := py_int (generate_audio.SAMPLE_RATE * d) in
  (0 <= i < n)%Z ->
  exists y,
    (t <~ lift_rand (py_div i n) ;;
     let freq := if o then 100 + 200 * t else 300 - 200 * t in
     let envelope := 0.4 * (1 - Qabs (t - 0.5) * 2) in
     x <~ random_random ;;
     let noise := 0.1 * (x * 2 - 1) in
     ret_rand (envelope
               * (math_sin (2 * math_pi * freq * i
                            / generate_audio.SAMPLE_RATE) + noise))) g
    = (Ok y, fun k => g (S k))
    /\ in_range (Door o d) (g 0%nat) y.
Proof.
  intros n Hi. unfold bind_rand, lift_rand, random_random, ret_rand.
  pose proof (Qdiv_Z_unit i n ltac:(lia) ltac:(lia)) as Ht.
  rewrite py_div_Z_ok by lia. cbv zeta.
  eexists. split; [reflexivity |].
  intros Hsin Hexp Hr. simpl amplitude_bound.
  set (t := inject_Z i / inject_Z n) in *.
  assert (Ha : 0 <= Qabs (t - 0.5) <= 0.5)
    by (split; [apply Qabs_nonneg | apply Qabs_le_iff; lra]).
  set (a := Qabs (t - 0.5)) in *. clearbody a.
  setoid_replace 0.44 with (0.4 * 1.1) by reflexivity.
  apply abs_prod_bound; [lra |].
  match goal with
  | |- context [math_sin ?x] =>
      pose proof (proj1 (Qabs_le_iff _ _) (Hsin x));
      set (s := math_sin x) in *; clearbody s
  end.
  apply Qabs_le_iff. lra.
Qed.

Lemma noise_call_draws (c : generator) (g : rng) :
  uses_random c = true ->
  exists buf,
    call c g
    = (Ok buf,
       fun k => g (Z.to_nat (py_int (44100%Z * duration_of c)) + k)%nat)
    /\ forall k, (k < length buf)%nat -> in_range c (g k) (nth k buf 0).
Proof.
  intros Hr.
  destruct c; try discriminate Hr; simpl call; simpl duration_of;
    [ destruct (mapM_rand_draws _ (fun _ => in_range (Noise duration volume fade_out))
                  _ (fun i g Hi => noise_body duration volume fade_out i g
                                     (proj1 (in_py_range _ i) Hi)) g)
        as (buf & E & Hlen & Hnth)
    | destruct (mapM_rand_draws _ (fun _ => in_range (Explosion duration volume))
                  _ (fun i g Hi => explosion_body duration volume i g
                                     (proj1 (in_py_range _ i) Hi)) g)
        as (buf & E & Hlen & Hnth)
    | destruct (mapM_rand_draws _ (fun _ => in_range (Door opening duration))
                  _ (fun i g Hi => door_body opening duration i g
                                     (proj1 (in_py_range _ i) Hi)) g)
        as (buf & E & Hlen & Hnth) ];
    rewrite length_py_range in E;
    (exists buf; split; [exact E |]);
    intros k Hk; apply (Hnth k 0%Z 0); rewrite <- Hlen; exact Hk.
Qed.

End NoiseFacts.

(** A noise-bearing generator takes exactly one draw per sample: the call
    leaves the random generator advanced by the length of the buffer. *)
Theorem noise_generators_take_one_draw_per_sample {M : PyMath}
  (c : generator) (g : rng) :
  uses_random c = true ->
  exists buf,
    fst (call c g) = Ok buf
    /\ forall k, snd (call c g) k = g (length buf + k)%nat.
Proof.
  intros Hr. destruct (noise_call_draws c g Hr) as (buf & E & _).
  destruct (call_total c g) as (buf' & g' & E' & Hlen).
  rewrite E in E'. injection E' as <- _.
  exists buf. rewrite E. split; [reflexivity |].
  intros k. cbn [snd]. rewrite Hlen.
  destruct c; try discriminate Hr; simpl notes_played;
    now rewrite Nat.mul_1_l.
Qed.

Lemma noise_generators_take_one_draw_per_sample_witness :
  uses_random (Door false (3 # 44100)) = true
  /\ exists buf,
       fst (call (M := taylor_math) (Door false (3 # 44100))
                 (constant_rng 0.5)) = Ok buf
       /\ forall k,
            snd (call (M := taylor_math) (Door false (3 # 44100))
                      (constant_rng 0.5)) k
            = constant_rng 0.5 (length buf + k)%nat.
Proof.
  split; [reflexivity |].
  apply (noise_generators_take_one_draw_per_sample (M := taylor_math)
           (Door false (3 # 44100)) (constant_rng 0.5)).
  reflexivity.
Defined.

(** With draws in [0, 1], a sine within [-1, 1] and an exponential within
    [0, 1] on non-positive arguments, no sample of a noise-bearing
    generator exceeds the call's amplitude bound: the volume for the noise
    and the explosion, 0.44 for the door. *)
Theorem noise_samples_within_amplitude_bound {M : PyMath}
  (c : generator) (g : rng) :
  (forall x, Qabs (math_sin x) <= 1) ->
  (forall x, x <= 0 -> 0 <= math_exp x <= 1) ->
  (forall k, 0 <= g k <= 1) ->
  uses_random c = true ->
  exists buf,
    fst (call c g) = Ok buf
    /\ Forall (fun s => Qabs s <= amplitude_bound c) buf.
Proof.
  intros Hsin Hexp Hg Hr.
  destruct (noise_call_draws c g Hr) as (buf & E & Hnth).
  exists buf. rewrite E. split; [reflexivity |].
  apply Forall_nth. intros k d Hk.
  rewrite (nth_indep _ d 0) by exact Hk.
  exact (Hnth k Hk Hsin Hexp (Hg k)).
Qed.

Lemma clipped_exp_bounded (x : Q) :
  x <= 0 -> 0 <= @math_exp clipped_math x <= 1.
Proof.
  intros _. simpl. unfold clamp.
  destruct (Qltb_spec (1 + x + x * x / 2) 0); [split; discriminate |].
  destruct (Qltb_spec 1 (1 + x + x * x / 2)); [split; discriminate |].
  lra.
Qed.

Lemma noise_samples_within_amplitude_bound_witness :
  (forall x, Qabs (@math_sin clipped_math x) <= 1)
  /\ (forall x, x <= 0 -> 0 <= @math_exp clipped_math x <= 1)
  /\ (forall k, 0 <= constant_rng 0.5 k <= 1)
  /\ uses_random (Explosion (3 # 44100) 0.7) = true
  /\ exists buf,
       fst (call (M := clipped_math) (Explosion (3 # 44100) 0.7)
                 (constant_rng 0.5)) = Ok buf
       /\ Forall (fun s => Qabs s <= Qabs 0.7) buf.
Proof.
  assert (Hg : forall k : nat, 0 <= constant_rng 0.5 k <= 1)
    by (intros k; split; discriminate).
  split; [exact clipped_sin_bounded |].
  split; [exact clipped_exp_bounded |].
  split; [exact Hg |]. split; [reflexivity |].
  exact (noise_samples_within_amplitude_bound (M := clipped_math)
           (Explosion (3 # 44100) 0.7) (constant_rng 0.5)
           clipped_sin_bounded clipped_exp_bounded Hg eq_refl).
Defined.

(** ** Arpeggios and the first sample of a faded tone *)





(** ** The mixer: exceptions, order of the tracks, mixing twice *)

Section MoreMixing.
Import generate_music.

Lemma length_normalized (result : list Q) :
  length (normalized result) = length result.
Proof.
  unfold normalized. destruct (Qltb 0.9 (peak_of result)); [| reflexivity].
  apply length_map.
Qed.

(** [mix_tracks] raises only when called with no track at all, and then
    [ValueError] (from [max] of an empty sequence); on one track or more it
    returns a buffer as long as the longest track, so no track is cut. *)
Theorem mix_tracks_raises_only_without_tracks (tracks : list (list Q)) :
  (tracks = [] -> mix_tracks tracks = Raise ValueError)
  /\ (tracks <> [] ->
      exists out,
        mix_tracks tracks = Ok out
        /\ length out = longest tracks
        /\ forall t, In t tracks -> (length t <= length out)%nat).
Proof.
  split.
  - intros ->. reflexivity.
  - intros Hne. exists (normalized (track_sum tracks)).
    split; [now apply mix_tracks_eq |].
    rewrite length_normalized, length_track_sum.
    split; [reflexivity |]. intros t Ht. now apply le_longest.
Qed.





Lemma normalized_fixed (out : list Q) :
  (out = [] \/ peak_of out <= 0.9) -> normalized out = out.
Proof.
  intros [-> | H]; [reflexivity |]. unfold normalized.
  destruct (Qltb_spec 0.9 (peak_of out)); [lra | reflexivity].
Qed.

(** What [mix_tracks] returns is never scaled again. *)
Lemma normalized_idempotent (result : list Q) :
  normalized (normalized result) = normalized result.
Proof.
  apply normalized_fixed.
  destruct result as [| s result]; [left; reflexivity |].
  right. set (l := s :: result).
  assert (Hl : l <> []) by discriminate.
  destruct (normalized_cases l Hl) as [(Hlt & En & Hpk) | (Hle & En)].
  - assert (Hn : normalized l <> [])
      by (rewrite En; subst l; discriminate).
    rewrite (is_peak_unique _ _ _ (peak_of_is_peak _ Hn) Hpk). discriminate.
  - now rewrite En.
Qed.

Lemma track_sum_single (out : list Q) : buf_eq (track_sum [out]) out.
Proof.
  apply buf_eq_of_nth.
  - rewrite length_track_sum. unfold longest. simpl. lia.
  - intros i. rewrite nth_track_sum. unfold sum_at. simpl. ring.
Qed.

(** Mixing is idempotent: passing the output of [mix_tracks] through
    [mix_tracks] again, alone, returns it unchanged, because its peak is
    already at most 0.9. *)
Theorem mix_tracks_idempotent (tracks : list (list Q)) (out : list Q) :
  mix_tracks tracks = Ok out ->
  exists out', mix_tracks [out] = Ok out' /\ buf_eq out' out.
Proof.
  intros E.
  assert (Hne : tracks <> []) by (intros ->; discriminate E).
  rewrite mix_tracks_eq in E by exact Hne. injection E as <-.
  exists (normalized (track_sum [normalized (track_sum tracks)])).
  split; [apply mix_tracks_eq; discriminate |].
  rewrite <- (normalized_idempotent (track_sum tracks)) at 2.
  apply normalized_comp, track_sum_single.
Qed.

Lemma mix_tracks_idempotent_witness :
  mix_tracks [[1; 1; 1]; [1]] = Ok [17000 # 20000; 8500 # 20000; 8500 # 20000]
  /\ exists out',
       mix_tracks [[17000 # 20000; 8500 # 20000; 8500 # 20000]] = Ok out'
       /\ buf_eq out' [17000 # 20000; 8500 # 20000; 8500 # 20000].
Proof.
  split; [reflexivity |].
  apply (mix_tracks_idempotent [[1; 1; 1]; [1]]). reflexivity.
Defined.

End MoreMixing.

(** ** The looper: when it returns, and looping twice *)

Section MoreLooping.
Import generate_music.

Lemma extend_until_exit (fuel : nat) (samples : list Q) (target : Z)
  (result result' : list Q) :
  extend_until fuel samples target result = Some result' ->
  (target <= Z.of_nat (length result'))%Z
  /\ ((target <= Z.of_nat (length result))%Z -> result' = result).
Proof.
  revert result. induction fuel as [| fuel IH]; intros result E; simpl in E.
  - discriminate.
  - destruct (Z.ltb_spec (Z.of_nat (length result)) target) as [Hlt | Hge].
    + destruct (IH _ E) as [H1 _]. split; [exact H1 | lia].
    + injection E as <-. split; [exact Hge | reflexivity].
Qed.

Lemma loop_to_duration_length (fuel : nat) (buf : list Q) (D : Q) (r : list Q) :
  loop_to_duration fuel buf D = Some r ->
  length r = Z.to_nat (py_int (44100%Z * D)).
Proof.
  unfold loop_to_duration, SAMPLE_RATE.
  set (target := py_int (44100%Z * D)).
  destruct (extend_until fuel buf target []) as [result |] eqn:E;
    [| discriminate].
  intros Er. injection Er as <-.
  destruct (extend_until_exit _ _ _ _ _ E) as [Hlen Himm].
  unfold py_slice_to. destruct (Z.ltb_spec target 0) as [Hneg | Hpos].
  - rewrite Himm by (simpl; lia). simpl. rewrite firstn_nil. simpl. lia.
  - rewrite length_firstn. lia.
Qed.

Lemma loop_to_duration_nonpositive (fuel : nat) (buf : list Q) (D : Q) :
  (py_int (44100%Z * D) <= 0)%Z ->
  loop_to_duration (S fuel) buf D = Some [].
Proof.
  intros H. unfold loop_to_duration, SAMPLE_RATE. simpl extend_until.
  destruct (Z.ltb_spec 0 (py_int (44100%Z * D))); [lia |].
  unfold py_slice_to. now rewrite !firstn_nil, Tauto.if_same.
Qed.

(** [loop_to_duration] returns exactly when the buffer is non-empty or the
    target length [int(44100 * duration)] is not positive; on an empty
    buffer with a positive target it loops forever. *)
Theorem loop_to_duration_returns_iff (buf : list Q) (D : Q) :
  (exists fuel r, loop_to_duration fuel buf D = Some r)
  <-> (buf <> [] \/ (py_int (44100%Z * D) <= 0)%Z).
Proof.
  split.
  - intros (fuel & r & E).
    destruct buf as [| s buf]; [| left; discriminate].
    right. destruct (Z.le_gt_cases (py_int (44100%Z * D)) 0) as [H | H];
      [exact H |].
    unfold loop_to_duration, SAMPLE_RATE in E.
    rewrite extend_until_empty_never_returns in E by lia. discriminate.
  - intros [Hne | Hle].
    + destruct (extend_until_returns buf (py_int (44100%Z * D)) Hne
                  (S (Z.to_nat (py_int (44100%Z * D)))) 0)
        as (k & E & _); [simpl; lia |].
      exists (S (Z.to_nat (py_int (44100%Z * D)))). eexists.
      unfold loop_to_duration, SAMPLE_RATE.
      simpl cycles in E. rewrite E. reflexivity.
    + exists 1%nat, []. now apply loop_to_duration_nonpositive.
Qed.

(** Looping is idempotent: a buffer already looped to a duration comes
    back unchanged when looped to the same duration again, after at most
    two tests of the loop condition. *)
Theorem loop_to_duration_idempotent
  (fuel fuel' : nat) (buf : list Q) (D : Q) (r : list Q) :
  loop_to_duration fuel buf D = Some r ->
  loop_to_duration (S (S fuel')) r D = Some r.
Proof.
  intros E. pose proof (loop_to_duration_length _ _ _ _ E) as Hlen.
  destruct (Z.le_gt_cases (py_int (44100%Z * D)) 0) as [Hle | Hgt].
  - rewrite loop_to_duration_nonpositive by exact Hle.
    destruct r; [reflexivity | simpl in Hlen; lia].
  - unfold loop_to_duration, SAMPLE_RATE. simpl extend_until.
    destruct (Z.ltb_spec 0 (py_int (44100%Z * D))); [| lia].
    destruct (Z.ltb_spec (Z.of_nat (length r)) (py_int (44100%Z * D)));
      [lia |].
    rewrite py_slice_to_nonneg by lia.
    rewrite <- Hlen. now rewrite firstn_all.
Qed.

Lemma loop_to_duration_idempotent_witness :
  loop_to_duration 6 [1; 2] (5 # 44100) = Some [1; 2; 1; 2; 1]
  /\ loop_to_duration 2 [1; 2; 1; 2; 1] (5 # 44100) = Some [1; 2; 1; 2; 1].
Proof.
  split; [reflexivity |].
  apply (loop_to_duration_idempotent 6 0 [1; 2] (5 # 44100)). reflexivity.
Defined.

End MoreLooping.

(** ** The encoder: packing, the file written, the quantiser *)



Lemma py_int_opp (x : Q) : py_int (- x) = (- py_int x)%Z.
Proof.
  destruct x as [n d]. unfold py_int. simpl.
  apply Z.quot_opp_l. discriminate.
Qed.

Lemma py_int_monotone (x y : Q) : x <= y -> (py_int x <= py_int y)%Z.
Proof.
  intros H. destruct (Qlt_le_dec x 0) as [Hx | Hx],
    (Qlt_le_dec y 0) as [Hy | Hy].
  - rewrite !py_int_ceiling by lra. now apply Qceiling_resp_le.
  - pose proof (py_int_nonpos x ltac:(lra)).
    pose proof (py_int_nonneg y Hy). lia.
  - lra.
  - rewrite !py_int_floor by lra. now apply Qfloor_resp_le.
Qed.

Lemma clamp_opp (s : Q) : clamp (-1) 1 (- s) == - clamp (-1) 1 s.
Proof.
  unfold clamp.
  destruct (Qltb_spec (- s) (-1)), (Qltb_spec 1 (- s)),
    (Qltb_spec s (-1)), (Qltb_spec 1 s); lra.
Qed.

Lemma clamp_monotone (s s' : Q) :
  s <= s' -> clamp (-1) 1 s <= clamp (-1) 1 s'.
Proof.
  intros H. unfold clamp.
  destruct (Qltb_spec s (-1)), (Qltb_spec 1 s),
    (Qltb_spec s' (-1)), (Qltb_spec 1 s'); lra.
Qed.

(** The file holds one integer per sample, computed from that sample alone
    (so saving a concatenation writes the concatenation of the integers).
    The quantiser is odd, a sample and its negative being written as
    opposite integers, and order-preserving. *)
Theorem pcm_quantiser_is_odd_and_monotone
  (filename : string) (fs : filesystem) :
  exists q : Q -> Z,
    (forall samples,
       written filename (generate_audio.save_wav filename samples fs)
       = Some (map q samples))
    /\ (forall a b,
          written filename (generate_audio.save_wav filename (a ++ b) fs)
          = Some (map q a ++ map q b))
    /\ (forall s, q (- s) = (- q s)%Z)
    /\ (forall s s', s <= s' -> (q s <= q s')%Z).
Proof.
  exists (fun s => py_int (py_max (-1.0) (py_min 1.0 s) * 32767)).
  split; [intros; apply save_wav_written |].
  split; [intros; rewrite save_wav_written; now rewrite map_app |].
  split.
  - intros s. rewrite <- py_int_opp. apply py_int_comp.
    rewrite !max_min_is_clamp, clamp_opp. ring.
  - intros s s' H. apply py_int_monotone.
    rewrite !max_min_is_clamp.
    pose proof (clamp_monotone s s' H). lra.
Qed.

(** ** The music cues *)

Section CueFacts.
Context {M : PyMath}.
Import generate_music.

Lemma foldM_run_invariant {A S} (step : S -> A -> run S)
  (I : nat -> S -> Prop) (l : list A) :
  (forall k acc x, In x l -> I k acc ->
     exists acc', step acc x = Returns acc' /\ I (Datatypes.S k) acc') ->
  forall k acc, I k acc ->
    exists out, foldM_run step l acc = Returns out /\ I (k + length l)%nat out.
Proof.
  induction l as [| x l IH]; intros H k acc Hacc; simpl.
  - exists acc. split; [reflexivity |]. now rewrite Nat.add_0_r.
  - destruct (H k acc x (or_introl eq_refl) Hacc) as (acc' & -> & Hacc').
    simpl.
    destruct (IH (fun k acc x Hx => H k acc x (or_intror Hx)) _ _ Hacc')
      as (out & E & Hout).
    exists out. split; [exact E |].
    now rewrite Nat.add_succ_r.
Qed.

(** A loop that extends a buffer by [n] samples per item. *)
Lemma foldM_run_extends {A} (step : list Q -> A -> run (list Q))
  (n : nat) (l : list A) (acc : list Q) :
  (forall acc x, In x l ->
     exists acc', step acc x = Returns acc'
                  /\ length acc' = (length acc + n)%nat) ->
  exists out,
    foldM_run step l acc = Returns out
    /\ length out = (length acc + length l * n)%nat.
Proof.
  intros H.
  destruct (foldM_run_invariant step
              (fun k buf => length buf = (length acc + k * n)%nat) l) with
    (k := 0%nat) (acc := acc) as (out & E & Hout).
  - intros k buf x Hx Hbuf.
    destruct (H buf x Hx) as (buf' & E & Hlen).
    exists buf'. split; [exact E |]. rewrite Hlen, Hbuf. simpl. lia.
  - simpl. lia.
  - exists out. split; [exact E | exact Hout].
Qed.

Lemma length_silence (n : Z) : length (silence n) = Z.to_nat n.
Proof. apply repeat_length. Qed.

Lemma layer_pads_total (chord : list Q) (d v : Q) (acc : list Q) :
  length acc = Z.to_nat (py_int (44100%Z * d)) ->
  exists out,
    layer_pads chord d v acc = Returns out /\ length out = length acc.
Proof.
  intros Hacc. unfold layer_pads.
  destruct (foldM_run_invariant
              (fun chord_samples note =>
                 pad <-- of_outcome (generate_pad note d v) ;;
                 of_outcome (add_track chord_samples pad))
              (fun _ buf => length buf = length acc) chord) with
    (k := 0%nat) (acc := acc) as (out & E & Hout).
  - intros k buf note _ Hbuf.
    destruct (generate_pad_total note d v) as (pad & -> & Hpad). simpl.
    rewrite add_track_is_add_prefix by lia. simpl.
    eexists. split; [reflexivity |]. now rewrite length_add_prefix.
  - reflexivity.
  - exists out. split; [exact E | exact Hout].
Qed.

Lemma pad_progression_total (chords : list (list Q)) (d v : Q) :
  exists out,
    pad_progression chords d v = Returns out
    /\ length out = (length chords * Z.to_nat (py_int (44100%Z * d)))%nat.
Proof.
  unfold pad_progression.
  apply (foldM_run_extends _ (Z.to_nat (py_int (44100%Z * d))) chords []).
  intros acc chord _. cbv zeta.
  destruct (layer_pads_total chord d v (silence (py_int (SAMPLE_RATE * d))))
    as (out & -> & Hout); [apply length_silence |].
  simpl. eexists. split; [reflexivity |].
  rewrite length_app, Hout, length_silence. reflexivity.
Qed.

(** The looper returns once it has the fuel for [target + 1] tests. *)
Lemma loop_returns (fuel : nat) (buf : list Q) (D : Q) :
  (buf <> [] \/ (py_int (44100%Z * D) <= 0)%Z) ->
  (Z.to_nat (py_int (44100%Z * D)) < fuel)%nat ->
  exists r,
    loop_to_duration fuel buf D = Some r
    /\ length r = Z.to_nat (py_int (44100%Z * D))
    /\ forall i, (i < length r)%nat ->
         nth_error r i = nth_error buf (i mod length buf).
Proof.
  intros Hcase Hfuel.
  destruct (Z.le_gt_cases (py_int (44100%Z * D)) 0) as [Hle | Hgt].
  - destruct fuel as [| fuel]; [lia |].
    exists []. split; [now apply loop_to_duration_nonpositive |].
    split; [simpl; lia |]. intros i Hi. simpl in Hi. lia.
  - destruct Hcase as [Hne | Hle]; [| lia].
    destruct (extend_until_returns buf (py_int (44100%Z * D)) Hne fuel 0)
      as (k & E & Hk & _); [simpl; lia |].
    simpl cycles in E.
    assert (Er : loop_to_duration fuel buf D
                 = Some (firstn (Z.to_nat (py_int (44100%Z * D)))
                           (cycles k buf))).
    { unfold loop_to_duration, SAMPLE_RATE. rewrite E.
      now rewrite py_slice_to_nonneg by lia. }
    eexists. split; [exact Er |].
    assert (Hlen : length (firstn (Z.to_nat (py_int (44100%Z * D)))
                             (cycles k buf))
                   = Z.to_nat (py_int (44100%Z * D)))
      by (rewrite length_firstn, length_cycles; lia).
    split; [exact Hlen |].
    intros i Hi. rewrite Hlen in Hi. rewrite nth_error_firstn.
    destruct (Nat.ltb_spec i (Z.to_nat (py_int (44100%Z * D)))); [| lia].
    apply nth_error_cycles. lia.
Qed.

Lemma normalized_bounded (result : list Q) :
  Forall (fun s => Qabs s <= 0.9) (normalized result).
Proof.
  destruct result as [| s result]; [constructor |].
  set (l := s :: result). assert (Hl : l <> []) by discriminate.
  apply Forall_forall. intros x Hx.
  destruct (normalized_cases l Hl) as [(_ & _ & Hpk) | (Hle & En)].
  - apply Qle_trans with 0.85; [now apply Hpk | discriminate].
  - rewrite En in Hx.
    apply Qle_trans with (peak_of l);
      [now apply (peak_of_is_peak l Hl) | exact Hle].
Qed.

(** What a cue gets back from the mixer. *)
Lemma mixed (tracks : list (list Q)) (n : nat) :
  tracks <> [] -> longest tracks = n ->
  exists out,
    of_outcome (mix_tracks tracks) = Returns out
    /\ length out = n
    /\ Forall (fun s => Qabs s <= 0.9) out.
Proof.
  intros Hne Hn. rewrite mix_tracks_eq by exact Hne.
  eexists. split; [reflexivity |].
  split; [now rewrite length_normalized, length_track_sum |].
  apply normalized_bounded.
Qed.

Lemma bind_run_Returns {A B} (x : A) (k : A -> run B) :
  bind_run (Returns x) k = k x.
Proof. reflexivity. Qed.

(** Replace a look-up of literal note names by the frequencies found. *)
Ltac look_up :=
  repeat match goal with
    | |- context [mapM_run ?f ?keys] =>
        let v := eval vm_compute in (mapM_run f keys) in
        let E := fresh "E" in
        assert (E : mapM_run f keys = v) by (vm_compute; reflexivity);
        rewrite E; clear E
    | |- context [dict_getitem NOTES ?key] =>
        let v := eval vm_compute in (dict_getitem NOTES key) in
        let E := fresh "E" in
        assert (E : dict_getitem NOTES key = v) by (vm_compute; reflexivity);
        rewrite E; clear E
    end;
  rewrite ?bind_run_Returns.

(** One step of a loop that appends a generated buffer. *)
Ltac appended :=
  cbn [bind_run of_outcome]; eexists; split; [reflexivity |];
  rewrite ?length_app, ?length_silence;
  repeat match goal with H : length _ = _ |- _ => rewrite H; clear H end;
  try reflexivity.



Ltac bass_step :=
  match goal with
  | |- context [generate_bass ?f ?d ?v] =>
      destruct (generate_bass_total f d v) as (? & -> & ?)
  end.

(** Run the loop at the head of the goal, which appends [n] samples per
    item, closing the step with [tac]. *)
Ltac run_loop n tac :=
  match goal with
  | |- context [bind_run (foldM_run ?step ?l ?acc) _] =>
      let out := fresh "seq" in
      let E := fresh "E" in
      let H := fresh "Hseq" in
      destruct (foldM_run_extends step n l acc) as (out & E & H);
      [ tac | rewrite E; clear E; rewrite ?bind_run_Returns ]
  end.

Lemma nonempty_of_length (l : list Q) : (0 < length l)%nat -> l <> [].
Proof. intros H ->. simpl in H. lia. Qed.

Lemma of_outcome_Ok {A} (x : A) : of_outcome (Ok x) = Returns x.
Proof. reflexivity. Qed.

Lemma of_loop_Some {A} (x : A) : of_loop (Some x) = Returns x.
Proof. reflexivity. Qed.

Ltac stepped := rewrite ?of_outcome_Ok, ?of_loop_Some, ?bind_run_Returns.

(** Run the generator call at the head of the goal. *)
Ltac gen_step :=
  let E := fresh "E" in
  match goal with
  | |- context [of_outcome (generate_pad ?f ?d ?v)] =>
      destruct (generate_pad_total f d v) as (? & E & ?)
  | |- context [of_outcome (generate_arp ?ns ?d ?v)] =>
      destruct (generate_arp_total ns d v) as (? & E & ?)
  end;
  rewrite E; clear E; stepped.

Ltac progression_step :=
  let E := fresh "E" in
  match goal with
  | |- context [pad_progression ?c ?d ?v] =>
      destruct (pad_progression_total c d v) as (? & E & ?)
  end;
  rewrite E; clear E; stepped.

(** The literal durations give positive sample counts. *)
Ltac positives :=
  repeat match goal with
    | |- context [Z.to_nat (py_int ?x)] =>
        lazymatch goal with
        | _ : (0 < py_int x)%Z |- _ => fail
        | _ => assert (0 < py_int x)%Z by (vm_compute; reflexivity)
        end
    end.

Ltac nonempty :=
  apply nonempty_of_length;
  match goal with
  | H : length ?b = _ |- (0 < length ?b)%nat => rewrite H
  end;
  rewrite ?length_py_range;
  cbn [length enumerate enumerate_from];
  positives; lia.

(** Run the looper at the head of the goal on a non-empty pattern. *)
Ltac loop_step Hfuel :=
  match goal with
  | |- context [of_loop (loop_to_duration ?fuel ?buf ?d)] =>
      let E := fresh "E" in
      let r := fresh "track" in
      let Hr := fresh "Htrack" in
      destruct (loop_returns fuel buf d) as (r & E & Hr & _);
      [ left; nonempty | exact Hfuel | rewrite E; clear E; stepped ]
  end.

(** Close a cue that ends in the mixer. *)
Ltac mix_step :=
  match goal with
  | |- exists out, of_outcome (mix_tracks ?tracks) = Returns out
                   /\ length out = ?n /\ _ =>
      let out := fresh "out" in
      let E := fresh "E" in
      let Hlen := fresh "Hlen" in
      let Hb := fresh "Hb" in
      destruct (mixed tracks n) as (out & E & Hlen & Hb);
      [ discriminate
      | unfold longest; cbn [map fold_right]; lia
      | exists out; split; [exact E | split; [exact Hlen | exact Hb]] ]
  end.

Lemma foldM_run_total {A S} (step : S -> A -> run S) (l : list A) (s : S) :
  (forall acc x, exists acc', step acc x = Returns acc') ->
  exists out, foldM_run step l s = Returns out.
Proof.
  intros H.
  destruct (foldM_run_invariant step (fun _ _ => True) l) with
    (k := 0%nat) (acc := s) as (out & E & _).
  - intros k acc x _ _. destruct (H acc x) as (acc' & E).
    exists acc'. split; [exact E | exact I].
  - exact I.
  - exists out. exact E.
Qed.

(** The pulse loop of the boarding cue runs [int(duration / interval)]
    times, and the slice of its result fits in the cue's length. *)
Lemma pulse_track_fits (step : list Q -> Z -> run (list Q)) (d interval : Q) :
  0 < interval ->
  (forall acc x, exists acc', step acc x = Returns acc') ->
  exists pulse_sequence,
    foldM_run step (py_range (py_int (d / interval))) [] = Returns pulse_sequence
    /\ (length (py_slice_to pulse_sequence (py_int (SAMPLE_RATE * d)))
        <= Z.to_nat (py_int (44100%Z * d)))%nat.
Proof.
  intros Hpos Hstep. unfold SAMPLE_RATE.
  destruct (Z.le_gt_cases 0 (py_int (44100%Z * d))) as [Hge | Hlt].
  - destruct (foldM_run_total step (py_range (py_int (d / interval))) []
                Hstep) as (out & E).
    exists out. split; [exact E |].
    rewrite py_slice_to_nonneg by exact Hge. apply firstn_le_length.
  - assert (Hd : d < 0).
    { apply Qnot_le_lt. intros Hd.
      assert (0 <= 44100%Z * d) by (apply Qmult_le_0_compat; [discriminate | exact Hd]).
      pose proof (py_int_nonneg _ H). lia. }
    assert (Hq : d / interval <= 0).
    { unfold Qdiv. rewrite <- (Qmult_0_l (/ interval)).
      apply Qmult_le_compat_r; [now apply Qlt_le_weak |].
      apply Qlt_le_weak, Qinv_lt_0_compat, Hpos. }
    rewrite (py_range_nonpos _ (py_int_nonpos _ Hq)).
    exists []. split; [reflexivity |].
    unfold py_slice_to. rewrite !firstn_nil, Tauto.if_same. simpl. lia.
Qed.

(** [generate_main_menu_music] raises nothing and returns exactly
    [int(44100 * duration)] samples (none when that is negative), none of
    them above 0.9 in absolute value: the looped pad progression, the
    looped arpeggio and the drone all have that length, and the mixer
    normalises their sum. *)
Theorem main_menu_music_fills_duration (fuel : nat) (duration : Q) :
  (Z.to_nat (py_int (44100%Z * duration)) < fuel)%nat ->
  exists out,
    generate_main_menu_music fuel duration = Returns out
    /\ length out = Z.to_nat (py_int (44100%Z * duration))
    /\ Forall (fun s => Qabs s <= 0.9) out.
Proof.
  intros Hfuel. unfold generate_main_menu_music. cbv zeta. look_up.
  progression_step. loop_step Hfuel.
  gen_step. loop_step Hfuel. gen_step.
  mix_step.
Qed.

(** [generate_space_exploration_music] raises nothing and returns exactly
    [int(44100 * duration)] samples, none of them above 0.9 in absolute
    value. *)
Theorem space_exploration_music_fills_duration (fuel : nat) (duration : Q) :
  (Z.to_nat (py_int (44100%Z * duration)) < fuel)%nat ->
  exists out,
    generate_space_exploration_music fuel duration = Returns out
    /\ length out = Z.to_nat (py_int (44100%Z * duration))
    /\ Forall (fun s => Qabs s <= 0.9) out.
Proof.
  intros Hfuel. unfold generate_space_exploration_music. cbv zeta. look_up.
  progression_step. loop_step Hfuel.
  run_loop (Z.to_nat (py_int (44100%Z * 6.0)))
    ltac:(intros acc note _; bass_step; appended).
  loop_step Hfuel.
  gen_step. loop_step Hfuel.
  mix_step.
Qed.


(** [generate_boarding_music] raises nothing, with or without [escape],
    and returns exactly [int(44100 * duration)] samples, none of them
    above 0.9 in absolute value: the drone and the two pads have that
    length, the pulse track is cut to at most that length, and the escape
    arpeggio is looped to it. *)
Theorem boarding_music_fills_duration (fuel : nat) (duration : Q)
  (escape : bool) :
  (Z.to_nat (py_int (44100%Z * duration)) < fuel)%nat ->
  exists out,
    generate_boarding_music fuel duration escape = Returns out
    /\ length out = Z.to_nat (py_int (44100%Z * duration))
    /\ Forall (fun s => Qabs s <= 0.9) out.
Proof.
  intros Hfuel. unfold generate_boarding_music.
  destruct escape; cbn [negb]; cbv iota zeta; look_up;
    do 3 gen_step;
    match goal with
    | |- context [foldM_run ?step (py_range (py_int (duration / ?p))) []] =>
        destruct (pulse_track_fits step duration p) as (pulse & E & Hpulse);
        [ reflexivity
        | intros acc i; cbn [bind_run]; do 2 bass_step;
          cbn [bind_run of_outcome]; eexists; reflexivity
        | rewrite E; clear E; stepped ]
    end.
  - gen_step. loop_step Hfuel. mix_step.
  - mix_step.
Qed.



End CueFacts.

Lemma main_menu_music_fills_duration_witness :
  (Z.to_nat (py_int (44100%Z * (3 # 44100))) < 4)%nat
  /\ exists out,
       generate_music.generate_main_menu_music (M := taylor_math) 4 (3 # 44100) = generate_music.Returns out
       /\ length out = Z.to_nat (py_int (44100%Z * (3 # 44100)))
       /\ Forall (fun s => Qabs s <= 0.9) out.
Proof.
  split; [vm_compute; lia |].
  apply (main_menu_music_fills_duration (M := taylor_math) 4 (3 # 44100)).
  vm_compute. lia.
Defined.

Lemma space_exploration_music_fills_duration_witness :
  (Z.to_nat (py_int (44100%Z * (3 # 44100))) < 4)%nat
  /\ exists out,
       generate_music.generate_space_exploration_music (M := taylor_math) 4 (3 # 44100) = generate_music.Returns out
       /\ length out = Z.to_nat (py_int (44100%Z * (3 # 44100)))
       /\ Forall (fun s => Qabs s <= 0.9) out.
Proof.
  split; [vm_compute; lia |].
  apply (space_exploration_music_fills_duration (M := taylor_math) 4 (3 # 44100)).
  vm_compute. lia.
Defined.


Lemma boarding_music_fills_duration_witness :
  (Z.to_nat (py_int (44100%Z * (3 # 44100))) < 4)%nat
  /\ exists out,
       generate_music.generate_boarding_music (M := taylor_math) 4 (3 # 44100) true = generate_music.Returns out
       /\ length out = Z.to_nat (py_int (44100%Z * (3 # 44100)))
       /\ Forall (fun s => Qabs s <= 0.9) out.
Proof.
  split; [vm_compute; lia |].
  apply (boarding_music_fills_duration (M := taylor_math) 4 (3 # 44100) true).
  vm_compute. lia.
Defined.


